(** * groupArrayInsertAt: the generic positional aggregation state

    A shallow embedding of
    [src/AggregateFunctions/AggregateFunctionGroupArrayInsertAt.cpp]:
    the state ([Array] of [Field]s), [add], [merge], [serialize],
    [deserialize] and [insertResultInto], followed by the properties of
    the specification that are settled against them.

    Unsigned machine integers ([size_t], [UInt64], [UInt8]) are values of
    [N]; where the source can wrap, the reduction modulo [2^64] is written
    out.  Indices into vectors are [nat], obtained with [N.to_nat]. *)

From Stdlib Require Import NArith List Lia.
From Stdlib Require Strings.Byte.
From Stdlib Require String.
From stdpp Require Import base list numbers.
Import ListNotations.

Open Scope N_scope.

(** [constexpr size_t AGGREGATE_FUNCTION_GROUP_ARRAY_INSERT_AT_MAX_SIZE = 0xFFFFFF] *)
Definition AGGREGATE_FUNCTION_GROUP_ARRAY_INSERT_AT_MAX_SIZE : N := 0xFFFFFF.

Abbreviation MAX_SIZE := AGGREGATE_FUNCTION_GROUP_ARRAY_INSERT_AT_MAX_SIZE.

(** Arithmetic on [UInt64] wraps. *)
Definition wrap64 (x : N) : N := x mod 2 ^ 64.

(** A byte stream: each element is one [UInt8]. *)
Definition Bytes := list N.

(** The error codes the translation unit declares. *)
Inductive ErrorCodes :=
  | NUMBER_OF_ARGUMENTS_DOESNT_MATCH
  | TOO_MANY_ARGUMENTS_FOR_FUNCTION
  | TOO_LARGE_ARRAY_SIZE
  | CANNOT_CONVERT_TYPE
  | ILLEGAL_TYPE_OF_ARGUMENT.

(** An exception is either thrown by this file with one of its error codes,
    or comes out of a collaborator (the read buffer reaching its end, the
    serialization of the element type rejecting its input) and passes
    through. *)
Inductive Exception :=
  | Raised (code : ErrorCodes)
  | Propagated.

(** ** Field and Array

    [Field] is the engine's runtime-typed value.  The only thing this
    file asks of a field is [isNull]; the payload of a non-null field is
    kept abstract. *)

Inductive Field (V : Type) :=
  | Null
  | Value (v : V).

Arguments Null {V}.
Arguments Value {V} v.

Definition isNull {V} (f : Field V) : bool :=
  match f with
  | Null => true
  | Value _ => false
  end.

(** [struct AggregateFunctionGroupArrayInsertAtDataGeneric { Array value; }] *)
Abbreviation Array V := (list (Field V)).

(** [arr[i]]; the source only indexes inside the vector, outside of it the
    model reads an empty slot. *)
Definition at_ {V} (arr : Array V) (i : nat) : Field V :=
  default Null (arr !! i).

(** The members of the function object that the methods read. *)
Record Config (V : Type) := mkConfig {
  default_value : Field V;
  length_to_resize : N (* zero means - do not do resizing. *)
}.

Arguments mkConfig {V}.
Arguments default_value {V}.
Arguments length_to_resize {V}.

(** A method either returns or throws; in both cases the state it was
    working on is there afterwards. *)
Inductive Outcome (V : Type) :=
  | Done (arr : Array V)
  | Thrown (e : Exception) (arr : Array V).

Arguments Done {V}.
Arguments Thrown {V}.

Definition state_of {V} (o : Outcome V) : Array V :=
  match o with
  | Done arr => arr
  | Thrown _ arr => arr
  end.

(** Modelled from the spec: the engine's array-typed output column
    ([Columns/ColumnArray.h] is not among the sources): a flat column of
    elements and the cumulative end offset of every row. *)
Record ColumnArray (V : Type) := mkColumnArray {
  getData : list (Field V);
  getOffsets : list N
}.

Arguments mkColumnArray {V}.
Arguments getData {V}.
Arguments getOffsets {V}.

Section GroupArrayInsertAt.

Context {V : Type}.

Implicit Types (arr lhs rhs : Array V) (c : Config V) (value : Field V).
Implicit Types (position : N) (to : ColumnArray V).

(** The part of the constructor that fixes [length_to_resize]
    (the second parameter, when given). *)
Definition construct (default : Field V) (length : N) : Exception + Config V :=
  if decide (MAX_SIZE < length)
  then inl (Raised TOO_LARGE_ARRAY_SIZE)
  else inr (mkConfig default length).

(** *** add *)
Definition add c arr value position : Outcome V :=
  (* If position is larger than size to which array will be cut - simply ignore value. *)
  if decide (length_to_resize c ≠ 0 ∧ length_to_resize c ≤ position) then Done arr
  else if decide (MAX_SIZE ≤ position) then Thrown (Raised TOO_LARGE_ARRAY_SIZE) arr
  else
    let p := N.to_nat position in
    if decide (length arr ≤ p)%nat then
      Done (<[p := value]> (resize (p + 1) Null arr))
    else if negb (isNull (at_ arr p)) then
      Done arr (* Element was already inserted to the specified position. *)
    else
      Done (<[p := value]> arr).

(** *** merge *)
Definition merge_step rhs (arr_lhs : Array V) (i : nat) : Array V :=
  if isNull (at_ arr_lhs i) && negb (isNull (at_ rhs i))
  then <[i := at_ rhs i]> arr_lhs
  else arr_lhs.

Definition merge lhs rhs : Array V :=
  let arr_lhs :=
    if decide (length lhs < length rhs)%nat
    then resize (length rhs) Null lhs
    else lhs in
  foldl (merge_step rhs) arr_lhs (seq 0 (length rhs)).

(** *** insertResultInto *)

(** [to_offsets.back()]; the offsets of a column are padded on the left
    with a zero, which is what an empty column reads. *)
Definition offsets_back (offsets : list N) : N := List.last offsets 0.

Definition insertResultInto c arr to : ColumnArray V :=
  let to_data :=
    foldl (fun d elem =>
             if negb (isNull elem) then d ++ [elem] else d ++ [default_value c])
          (getData to) arr in
  let result_array_size :=
    if decide (length_to_resize c ≠ 0) then length_to_resize c
    else N.of_nat (length arr) in
  (* Pad array if need. *)
  let to_data :=
    to_data ++ replicate (N.to_nat result_array_size - length arr) (default_value c) in
  mkColumnArray to_data
    (getOffsets to ++ [wrap64 (offsets_back (getOffsets to) + result_array_size)]).

(** Modelled from the spec: reading a row back from the output column
    ([Columns/ColumnArray.h] is not among the sources): row [n] is the
    slice of the data between the end of row [n - 1] and its own end. *)
Definition offsetAt (offsets : list N) (n : nat) : N :=
  match n with
  | O => 0
  | S m => default 0 (offsets !! m)
  end.

Definition rowAt to (n : nat) : list (Field V) :=
  let start := offsetAt (getOffsets to) n in
  let stop := offsetAt (getOffsets to) (S n) in
  take (N.to_nat (stop - start)) (drop (N.to_nat start) (getData to)).

Definition emptyColumn : ColumnArray V := mkColumnArray [] [].

(** The array a state finalizes to: the row it adds to a fresh column. *)
Definition finalize c arr : list (Field V) :=
  rowAt (insertResultInto c arr emptyColumn) 0.

(** A column is consistent when its offsets account for all of its data. *)
Definition consistent to : Prop :=
  N.of_nat (length (getData to)) = offsets_back (getOffsets to).

(** ** The codec

    The encoding of the array size ([writeVarUInt], [readVarUInt]), of one
    byte and of one element (the [serialization] member) belong to
    collaborators; the methods are written over them. *)
Section Codec.

Variable writeVarUInt : N -> Bytes.
Variable readVarUInt : Bytes -> option (N * Bytes).
Variable serializeBinary : Field V -> Bytes.
Variable deserializeBinary : Bytes -> option (Field V * Bytes).

(** [writeBinary(UInt8(x), buf)] and [readBinary(is_null, buf)]. *)
Definition writeBinary_UInt8 (x : N) : Bytes := [x mod 256].

Definition readBinary_UInt8 (buf : Bytes) : option (N * Bytes) :=
  match buf with
  | [] => None
  | b :: rest => Some (b mod 256, rest)
  end.

(** *** serialize: the bytes appended to the write buffer. *)
Definition serialize_elem (elem : Field V) : Bytes :=
  if isNull elem then writeBinary_UInt8 1
  else writeBinary_UInt8 0 ++ serializeBinary elem.

Definition serialize arr : Bytes :=
  let size := N.of_nat (length arr) in
  foldl (fun out elem => out ++ serialize_elem elem) (writeVarUInt size) arr.

(** *** deserialize: the outcome and what is left of the read buffer. *)
Fixpoint deserialize_loop (count i : nat) arr (buf : Bytes) : Outcome V * Bytes :=
  match count with
  | O => (Done arr, buf)
  | S count' =>
      match readBinary_UInt8 buf with
      | None => (Thrown Propagated arr, buf)
      | Some (is_null, buf) =>
          if decide (is_null = 0) then
            match deserializeBinary buf with
            | None => (Thrown Propagated arr, buf)
            | Some (elem, buf) =>
                deserialize_loop count' (S i) (<[i := elem]> arr) buf
            end
          else deserialize_loop count' (S i) arr buf
      end
  end.

Definition deserialize arr (buf : Bytes) : Outcome V * Bytes :=
  match readVarUInt buf with
  | None => (Thrown Propagated arr, buf)
  | Some (size, buf) =>
      if decide (MAX_SIZE < size) then (Thrown (Raised TOO_LARGE_ARRAY_SIZE) arr, buf)
      else
        let n := N.to_nat size in
        deserialize_loop n 0 (resize n Null arr) buf
  end.

End Codec.

End GroupArrayInsertAt.

(** ** Notions the properties are stated with *)

Section Notions.

Context {V : Type}.

Implicit Types (arr a b s : Array V) (c : Config V).

(** What a slot holds once two sides were combined: the left value unless
    the left slot is empty. *)
Definition first_non_null (x y : Field V) : Field V :=
  if isNull x then y else x.

(** No position holds a value in both states. *)
Fixpoint written_disjoint a b : bool :=
  match a, b with
  | x :: a', y :: b' => (isNull x || isNull y) && written_disjoint a' b'
  | _, _ => true
  end.

(** The bound on the number of slots, and the bound the constructor puts
    on the configured length. *)
Definition valid_state s : Prop := N.of_nat (length s) ≤ MAX_SIZE.

Definition valid_config c : Prop := length_to_resize c ≤ MAX_SIZE.

(** [add] neither ignores nor rejects the position. *)
Definition accepted c (position : N) : Prop :=
  position < MAX_SIZE ∧ (length_to_resize c = 0 ∨ position < length_to_resize c).

(** The length of the finalized array, and the element a slot becomes. *)
Definition output_length c arr : N :=
  if decide (length_to_resize c ≠ 0) then length_to_resize c
  else N.of_nat (length arr).

Definition emitted c (slot : Field V) : Field V :=
  if isNull slot then default_value c else slot.

(** The states that [add], [merge] and [deserialize] build from the empty
    one, whether the call returns or throws. *)
Inductive reachable c
    (readVarUInt : Bytes -> option (N * Bytes))
    (deserializeBinary : Bytes -> option (Field V * Bytes)) : Array V -> Prop :=
  | reachable_empty : reachable c readVarUInt deserializeBinary []
  | reachable_add s value position :
      reachable c readVarUInt deserializeBinary s ->
      reachable c readVarUInt deserializeBinary (state_of (add c s value position))
  | reachable_merge dst src :
      reachable c readVarUInt deserializeBinary dst ->
      reachable c readVarUInt deserializeBinary src ->
      reachable c readVarUInt deserializeBinary (merge dst src)
  | reachable_deserialize s buf :
      reachable c readVarUInt deserializeBinary s ->
      reachable c readVarUInt deserializeBinary
        (state_of (fst (deserialize readVarUInt deserializeBinary s buf))).

End Notions.

(** Bounds on concrete states and configurations. *)
Ltac bound :=
  unfold valid_state, valid_config, accepted,
    AGGREGATE_FUNCTION_GROUP_ARRAY_INSERT_AT_MAX_SIZE;
  simpl; lia.

(** ** Rows, partial states and construction *)

Section Rows.

Context {V : Type}.

Implicit Types (arr s : Array V) (c : Config V).

(** Modelled from the spec: the aggregation pipeline (the callers of [add]
    are not among the sources) feeds the rows of a group to [add] one
    after the other; an exception ends the run. *)
Fixpoint add_rows c arr (rows : list (Field V * N)) : Outcome V :=
  match rows with
  | [] => Done arr
  | (value, position) :: rows =>
      match add c arr value position with
      | Done arr => add_rows c arr rows
      | Thrown e arr => Thrown e arr
      end
  end.

(** The first value that is not null among the rows whose position is
    [i] and is accepted by [add]. *)
Fixpoint first_value c (rows : list (Field V * N)) (i : nat) : Field V :=
  match rows with
  | [] => Null
  | (value, position) :: rows =>
      if decide (accepted c position ∧ N.to_nat position = i)
      then first_non_null value (first_value c rows i)
      else first_value c rows i
  end.

(** The states that [add] and [merge] alone build from the empty one,
    under one configuration. *)
Inductive built c : Array V -> Prop :=
  | built_empty : built c []
  | built_add s value position :
      built c s -> built c (state_of (add c s value position))
  | built_merge dst src :
      built c dst -> built c src -> built c (merge dst src).

End Rows.

Section Construction.

Context {V DataType : Type}.

(** What the constructor asks of its collaborators.  A collaborator that
    can throw returns [None] when it does. *)
Variable assertBinary : String.string -> list DataType -> bool.
Variable isUInt : DataType -> bool.
Variable getDefault : DataType -> Field V.
Variable convertToUInt64 : Field V -> option N.
Variable convertFieldToType : Field V -> DataType -> option (Field V).

(** The [params] part of the constructor: the default value as given and
    [length_to_resize]. *)
Definition read_params (params : Array V) : Exception + (Field V * N) :=
  if decide (params ≠ []) then
    if decide (2 < length params)%nat then
      inl (Raised TOO_MANY_ARGUMENTS_FOR_FUNCTION)
    else
      let default_value := at_ params 0 in
      if decide (length params = 2)%nat then
        match convertToUInt64 (at_ params 1) with
        | None => inl Propagated
        | Some length_to_resize =>
            if decide (MAX_SIZE < length_to_resize)
            then inl (Raised TOO_LARGE_ARRAY_SIZE)
            else inr (default_value, length_to_resize)
        end
      else inr (default_value, 0)
  else inr (Null, 0).

(** The constructor, on [arguments[0]] and [arguments[1]]. *)
Definition AggregateFunctionGroupArrayInsertAtGeneric
    (type position_type : DataType) (params : Array V) : Exception + Config V :=
  match read_params params with
  | inl e => inl e
  | inr (default_value, length_to_resize) =>
      if negb (isUInt position_type) then inl (Raised ILLEGAL_TYPE_OF_ARGUMENT)
      else if isNull default_value then
        inr (mkConfig (getDefault type) length_to_resize)
      else
        match convertFieldToType default_value type with
        | None => inl Propagated
        | Some converted =>
            if isNull converted then inl (Raised CANNOT_CONVERT_TYPE)
            else inr (mkConfig converted length_to_resize)
        end
  end.

Definition createAggregateFunctionGroupArrayInsertAt
    (name : String.string) (argument_types : list DataType)
    (parameters : Array V) : Exception + Config V :=
  if negb (assertBinary name argument_types) then inl Propagated
  else
    match argument_types with
    | [type; position_type] =>
        AggregateFunctionGroupArrayInsertAtGeneric type position_type parameters
    | _ => inl (Raised NUMBER_OF_ARGUMENTS_DOESNT_MATCH)
    end.

End Construction.

(** ** Instances of the collaborators

    Concrete encodings, used to run the methods on byte streams. *)

Module VarInt.

(** Modelled from the spec: the [VarUInt] encoding of the array size
    ([IO/VarInt.h] is not among the sources): seven bits per byte, least
    significant group first, the top bit of a byte set when another byte
    follows, nine bytes at most. *)
Fixpoint write_from (fuel : nat) (x : N) : Bytes :=
  match fuel with
  | O => []
  | S fuel' =>
      let byte := N.land x 0x7F in
      let byte := if decide (0x7F < x) then N.lor byte 0x80 else byte in
      let x := N.shiftr x 7 in
      byte :: (if decide (x = 0) then [] else write_from fuel' x)
  end.

Definition writeVarUInt (x : N) : Bytes := write_from 9 (wrap64 x).

Fixpoint read_from (fuel : nat) (i : N) (x : N) (buf : Bytes) : option (N * Bytes) :=
  match fuel with
  | O => Some (x, buf)
  | S fuel' =>
      match buf with
      | [] => None
      | byte :: buf =>
          let byte := byte mod 256 in
          let x := N.lor x (N.shiftl (N.land byte 0x7F) (7 * i)) in
          if decide (N.land byte 0x80 = 0) then Some (x, buf)
          else read_from fuel' (i + 1) x buf
      end
  end.

Definition readVarUInt (buf : Bytes) : option (N * Bytes) := read_from 9 0 0 buf.

End VarInt.

Module SerializationUInt8.

(** Modelled from the spec: the serialization of the element type [UInt8]
    (the [DataTypes] serializations are not among the sources): the value
    as its one byte. *)
Definition serializeBinary (field : Field Byte.byte) : Bytes :=
  match field with
  | Null => []
  | Value v => [Strings.Byte.to_N v]
  end.

Definition deserializeBinary (buf : Bytes) : option (Field Byte.byte * Bytes) :=
  match buf with
  | [] => None
  | b :: rest =>
      match Strings.Byte.of_N b with
      | Some v => Some (Value v, rest)
      | None => None
      end
  end.

End SerializationUInt8.

Lemma varuint_chunk (x : N) :
  N.lor (N.land x 0x7F) (N.shiftl (N.shiftr x 7) 7) = x.
Proof.
  apply N.bits_inj; intros n.
  rewrite N.lor_spec, N.land_spec.
  change 0x7F with (N.ones 7).
  destruct (decide (n < 7)) as [Hn | Hn].
  - rewrite N.shiftl_spec_low, N.ones_spec_low by lia.
    now rewrite andb_true_r, orb_false_r.
  - rewrite N.shiftl_spec_high', N.shiftr_spec', N.ones_spec_high by lia.
    rewrite andb_false_r. simpl. f_equal. lia.
Qed.

Lemma testbit_0x80 (n : N) : N.testbit 0x80 n = (7 =? n).
Proof. change 0x80 with (2 ^ 7). apply N.pow2_bits_eqb. Qed.

Lemma varuint_low_bits (x : N) :
  N.land (N.lor (N.land x 0x7F) 0x80) 0x7F = N.land x 0x7F.
Proof.
  apply N.bits_inj; intros n.
  rewrite !N.land_spec, N.lor_spec, N.land_spec, testbit_0x80.
  change 0x7F with (N.ones 7).
  destruct (decide (n < 7)) as [Hn | Hn].
  - rewrite N.ones_spec_low by lia.
    replace (7 =? n) with false by (symmetry; apply N.eqb_neq; lia).
    destruct (N.testbit x n); reflexivity.
  - rewrite N.ones_spec_high by lia. now rewrite !andb_false_r.
Qed.

Lemma varuint_flag_set (x : N) :
  N.land (N.lor (N.land x 0x7F) 0x80) 0x80 ≠ 0.
Proof.
  intros H.
  assert (Hb : N.testbit (N.land (N.lor (N.land x 0x7F) 0x80) 0x80) 7 = false)
    by now rewrite H.
  rewrite N.land_spec, N.lor_spec, testbit_0x80 in Hb.
  rewrite orb_true_r in Hb. discriminate.
Qed.

Lemma varuint_flag_clear (x : N) : N.land (N.land x 0x7F) 0x80 = 0.
Proof.
  apply N.bits_inj; intros n.
  rewrite !N.land_spec, N.bits_0, testbit_0x80.
  change 0x7F with (N.ones 7).
  destruct (decide (n < 7)) as [Hn | Hn].
  - replace (7 =? n) with false by (symmetry; apply N.eqb_neq; lia).
    now rewrite andb_false_r.
  - rewrite N.ones_spec_high by lia. now rewrite andb_false_r.
Qed.

Lemma varuint_byte_small (x : N) : N.land x 0x7F < 128.
Proof.
  change 0x7F with (N.ones 7). rewrite N.land_ones.
  apply N.mod_lt. discriminate.
Qed.

Lemma varuint_byte_flagged (x : N) : N.lor (N.land x 0x7F) 0x80 < 256.
Proof.
  assert (H : N.lor (N.land x 0x7F) 0x80 = N.land x 0x7F + 128).
  { rewrite N.add_nocarry_lxor.
    - rewrite N.lxor_lor; [reflexivity |]. apply varuint_flag_clear.
    - apply varuint_flag_clear. }
  rewrite H. pose proof (varuint_byte_small x). lia.
Qed.

Lemma read_write_from (fuel : nat) :
  ∀ (x i acc : N) (rest : Bytes),
    x < 2 ^ (7 * N.of_nat fuel) →
    VarInt.read_from fuel i acc (VarInt.write_from fuel x ++ rest)
    = Some (N.lor acc (N.shiftl x (7 * i)), rest).
Proof.
  induction fuel as [| fuel IH]; intros x i acc rest Hx.
  - simpl in *. assert (x = 0) as -> by lia.
    now rewrite N.shiftl_0_l, N.lor_0_r.
  - assert (Hx' : N.shiftr x 7 < 2 ^ (7 * N.of_nat fuel)).
    { rewrite N.shiftr_div_pow2. apply N.Div0.div_lt_upper_bound.
      rewrite <- N.pow_add_r.
      replace (7 + 7 * N.of_nat fuel) with (7 * N.of_nat (S fuel)) by lia.
      exact Hx. }
    cbn [VarInt.write_from VarInt.read_from].
    destruct (decide (0x7F < x)) as [Hbig | Hsmall].
    + destruct (decide (N.shiftr x 7 = 0)) as [Hz | Hnz].
      { exfalso. rewrite N.shiftr_div_pow2 in Hz.
        apply N.div_small_iff in Hz; [| discriminate].
        change (2 ^ 7) with 128 in Hz. lia. }
      cbn [app].
      rewrite (N.mod_small _ 256) by apply varuint_byte_flagged.
      destruct (decide (N.land (N.lor (N.land x 0x7F) 0x80) 0x80 = 0)) as [Hf | _];
        [now apply varuint_flag_set in Hf |].
      rewrite IH by exact Hx'.
      rewrite varuint_low_bits, <- N.lor_assoc.
      replace (7 * (i + 1)) with (7 + 7 * i) by lia.
      rewrite <- N.shiftl_shiftl, <- N.shiftl_lor, varuint_chunk.
      reflexivity.
    + assert (Hz : N.shiftr x 7 = 0).
      { rewrite N.shiftr_div_pow2. apply N.div_small.
        change (2 ^ 7) with 128. lia. }
      rewrite Hz. cbn [decide app].
      destruct (decide (0 = 0)) as [_ | Hne]; [| congruence].
      cbn [app].
      pose proof (varuint_byte_small x) as Hb.
      rewrite (N.mod_small _ 256) by lia.
      destruct (decide (N.land (N.land x 0x7F) 0x80 = 0)) as [_ | Hf];
        [| now destruct Hf; apply varuint_flag_clear].
      rewrite <- N.land_assoc.
      change (N.land 0x7F 0x7F) with 0x7F.
      change 0x7F with (N.ones 7). rewrite N.land_ones.
      rewrite N.mod_small by (change (2 ^ 7) with 128; lia).
      reflexivity.
Qed.

(** The size prefix reads back as written, for every size that fits the
    nine bytes. *)
Lemma readVarUInt_writeVarUInt (n : N) (rest : Bytes) :
  n < 2 ^ 63 →
  VarInt.readVarUInt (VarInt.writeVarUInt n ++ rest) = Some (n, rest).
Proof.
  intros Hn. unfold VarInt.readVarUInt, VarInt.writeVarUInt, wrap64.
  rewrite N.mod_small by (eapply N.lt_trans; [exact Hn | reflexivity]).
  rewrite read_write_from by exact Hn.
  now rewrite N.lor_0_l, N.shiftl_0_r.
Qed.

Lemma deserializeBinary_serializeBinary_UInt8 (v : Byte.byte) (rest : Bytes) :
  SerializationUInt8.deserializeBinary
    (SerializationUInt8.serializeBinary (Value v) ++ rest)
  = Some (Value v, rest).
Proof.
  unfold SerializationUInt8.deserializeBinary. simpl.
  now rewrite Strings.Byte.of_to_N.
Qed.

(** ** Properties *)

Section Properties.

Context {V : Type}.

Implicit Types (arr lhs rhs a b s : Array V) (c : Config V) (value : Field V).
Implicit Types (position : N) (to : ColumnArray V) (i p : nat).

Lemma isNull_true (x : Field V) : isNull x = true ↔ x = Null.
Proof. destruct x; simpl; split; congruence. Qed.

Lemma isNull_false (x : Field V) : isNull x = false ↔ ∃ v, x = Value v.
Proof.
  destruct x; simpl; split; try congruence; eauto.
  intros [v Hv]. discriminate.
Qed.

Lemma at_lookup_lt arr i : (i < length arr)%nat → arr !! i = Some (at_ arr i).
Proof.
  intros Hi. unfold at_.
  destruct (lookup_lt_is_Some_2 arr i Hi) as [x ->]. reflexivity.
Qed.

Lemma at_ge arr i : (length arr ≤ i)%nat → at_ arr i = Null.
Proof. intros Hi. unfold at_. now rewrite lookup_ge_None_2. Qed.

Lemma at_insert arr i j value :
  at_ (<[i := value]> arr) j
  = if decide (i = j ∧ (i < length arr)%nat) then value else at_ arr j.
Proof.
  unfold at_. rewrite list_lookup_insert.
  destruct (decide _); reflexivity.
Qed.

Lemma at_resize arr n i :
  at_ (resize n Null arr) i = if decide (i < n)%nat then at_ arr i else Null.
Proof.
  unfold at_. destruct (decide (i < n)%nat) as [Hlt | Hge].
  - destruct (decide (i < length arr)%nat).
    + now rewrite lookup_resize.
    + rewrite lookup_resize_new by lia. now rewrite lookup_ge_None_2 by lia.
  - now rewrite lookup_resize_old by lia.
Qed.

(** Two states are equal when they have the same length and the same
    slots. *)
Lemma array_eq a b :
  length a = length b → (∀ i, at_ a i = at_ b i) → a = b.
Proof.
  intros Hlen Hat. apply list_eq; intros i.
  destruct (decide (i < length a)%nat) as [Hi | Hi].
  - rewrite !at_lookup_lt by lia. now rewrite Hat.
  - now rewrite !lookup_ge_None_2 by lia.
Qed.

(** *** merge *)

Lemma length_merge_step rhs l i : length (merge_step rhs l i) = length l.
Proof.
  unfold merge_step. destruct (_ && _); [apply length_insert | reflexivity].
Qed.

Lemma at_merge_step rhs l i j :
  (i < length l)%nat →
  at_ (merge_step rhs l i) j
  = if decide (i = j) then first_non_null (at_ l i) (at_ rhs i) else at_ l j.
Proof.
  intros Hi. unfold merge_step, first_non_null.
  destruct (isNull (at_ l i)) eqn:Hl; simpl.
  - destruct (isNull (at_ rhs i)) eqn:Hr; simpl.
    + destruct (decide (i = j)) as [-> |]; [| reflexivity].
      apply isNull_true in Hl, Hr. congruence.
    + rewrite at_insert.
      destruct (decide (i = j)), (decide (i = j ∧ _)); intuition.
  - destruct (decide (i = j)) as [-> |]; reflexivity.
Qed.

Lemma merge_loop_spec rhs n :
  ∀ l, (n ≤ length l)%nat →
    length (foldl (merge_step rhs) l (seq 0 n)) = length l ∧
    ∀ j, at_ (foldl (merge_step rhs) l (seq 0 n)) j
         = if decide (j < n)%nat
           then first_non_null (at_ l j) (at_ rhs j)
           else at_ l j.
Proof.
  induction n as [| n IH]; intros l Hn.
  - simpl. split; [reflexivity |]. intros j.
    destruct (decide (j < 0)%nat); [lia | reflexivity].
  - destruct (IH l ltac:(lia)) as [Hlen Hat].
    rewrite seq_S, foldl_app. simpl.
    split; [now rewrite length_merge_step |].
    intros j. rewrite at_merge_step by lia.
    rewrite !Hat.
    destruct (decide (n = j)) as [<- |].
    + destruct (decide (n < n)%nat); [lia |].
      destruct (decide (n < S n)%nat); [reflexivity | lia].
    + destruct (decide (j < n)%nat), (decide (j < S n)%nat);
        reflexivity || lia.
Qed.

Lemma length_merge lhs rhs :
  length (merge lhs rhs) = (length lhs `max` length rhs)%nat.
Proof.
  unfold merge. destruct (decide (length lhs < length rhs)%nat).
  - destruct (merge_loop_spec rhs (length rhs) (resize (length rhs) Null lhs))
      as [-> _]; rewrite length_resize; lia.
  - destruct (merge_loop_spec rhs (length rhs) lhs) as [-> _]; lia.
Qed.

Lemma at_merge lhs rhs i :
  at_ (merge lhs rhs) i = first_non_null (at_ lhs i) (at_ rhs i).
Proof.
  unfold merge. destruct (decide (length lhs < length rhs)%nat).
  - destruct (merge_loop_spec rhs (length rhs) (resize (length rhs) Null lhs))
      as [_ ->]; [rewrite length_resize; lia |].
    rewrite at_resize.
    destruct (decide (i < length rhs)%nat); [reflexivity |].
    now rewrite (at_ge rhs), (at_ge lhs) by lia.
  - destruct (merge_loop_spec rhs (length rhs) lhs) as [_ ->]; [lia |].
    destruct (decide (i < length rhs)%nat); [reflexivity |].
    rewrite (at_ge rhs) by lia. unfold first_non_null.
    destruct (isNull (at_ lhs i)) eqn:H; [| reflexivity].
    now apply isNull_true in H.
Qed.

(** C4. After [merge dst src] the destination has the larger of the two
    lengths, and slot [i] holds what [dst] held there when that was a
    value, and what [src] held there otherwise.  In particular merging
    with the empty state, on either side, changes nothing. *)
Theorem merge_spec :
  (∀ dst src : Array V,
     length (merge dst src) = (length dst `max` length src)%nat ∧
     ∀ i, at_ (merge dst src) i
          = if negb (isNull (at_ dst i)) then at_ dst i else at_ src i) ∧
  (∀ s : Array V, merge s [] = s ∧ merge [] s = s).
Proof.
  split.
  - intros dst src. split; [apply length_merge |].
    intros i. rewrite at_merge. unfold first_non_null.
    destruct (isNull (at_ dst i)); reflexivity.
  - intros s. split.
    + reflexivity.
    + apply array_eq.
      * rewrite length_merge. simpl. lia.
      * intros i. rewrite at_merge. reflexivity.
Qed.

(** *** merge on states that wrote different positions *)

Lemma written_disjoint_at a : ∀ b i,
  written_disjoint a b = true →
  isNull (at_ a i) = true ∨ isNull (at_ b i) = true.
Proof.
  induction a as [| x a IH]; intros b i H.
  - left. reflexivity.
  - destruct b as [| y b]; [right; reflexivity |].
    simpl in H. apply andb_prop in H as [Hxy Hrest].
    destruct i as [| i].
    + apply orb_prop in Hxy. exact Hxy.
    + apply (IH b i Hrest).
Qed.

Lemma written_disjoint_merge_l a b d :
  written_disjoint a d = true → written_disjoint b d = true →
  ∀ i, isNull (at_ (merge a b) i) = true ∨ isNull (at_ d i) = true.
Proof.
  intros Ha Hb i. rewrite at_merge. unfold first_non_null.
  destruct (isNull (at_ a i)) eqn:E.
  - apply (written_disjoint_at b d i Hb).
  - destruct (written_disjoint_at a d i Ha) as [H | H]; [congruence | now right].
Qed.

Lemma first_non_null_comm (x y : Field V) :
  isNull x = true ∨ isNull y = true →
  first_non_null x y = first_non_null y x.
Proof.
  unfold first_non_null.
  destruct x, y; simpl; intros [H | H]; congruence.
Qed.

Lemma first_non_null_assoc (x y z : Field V) :
  first_non_null (first_non_null x y) z = first_non_null x (first_non_null y z).
Proof. destruct x, y, z; reflexivity. Qed.

(** C5. When no position holds a value in more than one of the states,
    [merge] does not depend on the order of its arguments, nor on how
    three states are grouped. *)
Theorem merge_comm_assoc_disjoint (a b d : Array V) :
  written_disjoint a b = true →
  written_disjoint a d = true →
  written_disjoint b d = true →
  merge a b = merge b a ∧
  merge (merge a b) d = merge a (merge b d).
Proof.
  intros Hab Had Hbd. split.
  - apply array_eq.
    + rewrite !length_merge. lia.
    + intros i. rewrite !at_merge.
      apply first_non_null_comm, (written_disjoint_at a b i Hab).
  - apply array_eq.
    + rewrite !length_merge. lia.
    + intros i. rewrite !at_merge. apply first_non_null_assoc.
Qed.

(** *** The constructor *)

Lemma construct_valid (default : Field V) (length : N) c :
  construct default length = inr c → valid_config c.
Proof.
  unfold construct, valid_config.
  destruct (decide (MAX_SIZE < length)); [discriminate |].
  intros [= <-]. simpl. lia.
Qed.

(** *** add *)

Lemma add_cases c arr value position :
  let p := N.to_nat position in
  (add c arr value position = Done arr ∧
   length_to_resize c ≠ 0 ∧ length_to_resize c ≤ position) ∨
  (add c arr value position = Thrown (Raised TOO_LARGE_ARRAY_SIZE) arr ∧
   ¬ (length_to_resize c ≠ 0 ∧ length_to_resize c ≤ position) ∧
   MAX_SIZE ≤ position) ∨
  (accepted c position ∧
   ((add c arr value position = Done (<[p := value]> (resize (p + 1) Null arr)) ∧
     (length arr ≤ p)%nat) ∨
    (add c arr value position = Done arr ∧
     (p < length arr)%nat ∧ isNull (at_ arr p) = false) ∨
    (add c arr value position = Done (<[p := value]> arr) ∧
     (p < length arr)%nat ∧ isNull (at_ arr p) = true))).
Proof.
  intros p. unfold add, accepted. fold p.
  destruct (decide (length_to_resize c ≠ 0 ∧ length_to_resize c ≤ position))
    as [Hcut | Hcut]; [left; tauto |].
  destruct (decide (MAX_SIZE ≤ position)) as [Hbig | Hbig];
    [right; left; tauto |].
  right; right. split.
  { split; [lia |].
    destruct (decide (length_to_resize c = 0)); [now left | right; lia]. }
  destruct (decide (length arr ≤ p)%nat); [left; tauto |].
  right. destruct (isNull (at_ arr p)) eqn:E; simpl.
  - right. split; [reflexivity | split; [lia | reflexivity]].
  - left. split; [reflexivity | split; [lia | reflexivity]].
Qed.

Lemma at_add c arr value position i :
  at_ (state_of (add c arr value position)) i
  = if decide (accepted c position ∧ i = N.to_nat position
               ∧ isNull (at_ arr i) = true)
    then value else at_ arr i.
Proof.
  destruct (add_cases c arr value position)
    as [(-> & H1 & H2) | [(-> & H1 & H2) | (Hacc & [(-> & H) | [(-> & H1 & H2) | (-> & H1 & H2)]])]];
    simpl.
  - destruct (decide _) as [([? [? | ?]] & _) | _]; [lia | lia | reflexivity].
  - destruct (decide _) as [([? ?] & _) | _]; [lia | reflexivity].
  - rewrite at_insert, length_resize, at_resize.
    destruct (decide (N.to_nat position = i ∧ _)) as [[<- _] | Hn].
    + rewrite (at_ge arr) by lia. simpl.
      destruct (decide _) as [_ | Hn]; [reflexivity | tauto].
    + destruct (decide (accepted c position ∧ _)) as [(_ & -> & _) | _]; [lia |].
      destruct (decide (i < N.to_nat position + 1)%nat); [reflexivity |].
      now rewrite at_ge by lia.
  - destruct (decide _) as [(_ & -> & E) | _]; [congruence | reflexivity].
  - rewrite at_insert.
    destruct (decide (N.to_nat position = i ∧ _)) as [[<- _] | Hn].
    + destruct (decide _) as [_ | Hn]; [reflexivity | tauto].
    + destruct (decide (accepted c position ∧ _)) as [(_ & -> & _) | _];
        [tauto | reflexivity].
Qed.

Lemma length_add c arr value position :
  length (state_of (add c arr value position))
  = if decide (accepted c position)
    then (length arr `max` (N.to_nat position + 1))%nat
    else length arr.
Proof.
  destruct (add_cases c arr value position)
    as [(-> & H1 & H2) | [(-> & H1 & H2) | (Hacc & [(-> & H) | [(-> & H1 & H2) | (-> & H1 & H2)]])]];
    simpl.
  - destruct (decide _) as [[? [? | ?]] | _]; [lia | lia | reflexivity].
  - destruct (decide _) as [[? ?] | _]; [lia | reflexivity].
  - rewrite length_insert, length_resize.
    destruct (decide _); [lia | tauto].
  - destruct (decide _); [lia | tauto].
  - rewrite length_insert. destruct (decide _); [lia | tauto].
Qed.

Lemma add_at_written c arr value i (v : V) :
  at_ arr i = Value v → state_of (add c arr value (N.of_nat i)) = arr.
Proof.
  intros Hv.
  destruct (add_cases c arr value (N.of_nat i))
    as [(-> & _) | [(-> & _) | (_ & [(_ & H) | [(-> & _) | (_ & _ & H)]])]];
    try reflexivity.
  - rewrite Nat2N.id in H. rewrite at_ge in Hv by lia. discriminate.
  - rewrite Nat2N.id, Hv in H. discriminate.
Qed.

(** C7. A slot that holds a value keeps it: an [add] at its position
    leaves the state as it is, no [add] at all changes the slot, and
    [merge] keeps the destination's value whatever the source holds. *)
Theorem non_null_slot_kept c (arr : Array V) i (v : V) :
  at_ arr i = Value v →
  (∀ value, state_of (add c arr value (N.of_nat i)) = arr) ∧
  (∀ value position, at_ (state_of (add c arr value position)) i = Value v) ∧
  (∀ src : Array V, at_ (merge arr src) i = Value v).
Proof.
  intros Hv. split; [| split].
  - intros value. now apply add_at_written with v.
  - intros value position. rewrite at_add.
    destruct (decide _) as [(_ & _ & H) | _]; [| exact Hv].
    rewrite Hv in H. discriminate.
  - intros src. rewrite at_merge, Hv. reflexivity.
Qed.

(** *** The codec *)

Section CodecProperties.

Variable writeVarUInt : N -> Bytes.
Variable readVarUInt : Bytes -> option (N * Bytes).
Variable serializeBinary : Field V -> Bytes.
Variable deserializeBinary : Bytes -> option (Field V * Bytes).

Abbreviation serialize' := (serialize writeVarUInt serializeBinary).
Abbreviation deserialize' := (deserialize readVarUInt deserializeBinary).
Abbreviation deserialize_loop' := (deserialize_loop deserializeBinary).
Abbreviation serialize_elem' := (serialize_elem serializeBinary).

Lemma length_deserialize_loop count :
  ∀ i arr buf,
    length (state_of (fst (deserialize_loop' count i arr buf))) = length arr.
Proof.
  induction count as [| count IH]; intros i arr buf; simpl; [reflexivity |].
  destruct (readBinary_UInt8 buf) as [[is_null buf'] |]; [| reflexivity].
  destruct (decide (is_null = 0)); [| apply IH].
  destruct (deserializeBinary buf') as [[elem buf''] |]; [| reflexivity].
  rewrite IH. apply length_insert.
Qed.

Lemma length_deserialize arr buf :
  length (state_of (fst (deserialize' arr buf))) = length arr ∨
  N.of_nat (length (state_of (fst (deserialize' arr buf)))) ≤ MAX_SIZE.
Proof.
  unfold deserialize.
  destruct (readVarUInt buf) as [[size buf'] |]; [| now left].
  destruct (decide (MAX_SIZE < size)); [now left |].
  right. rewrite length_deserialize_loop, length_resize. lia.
Qed.

Lemma valid_state_merge (dst src : Array V) :
  valid_state dst → valid_state src → valid_state (merge dst src).
Proof. unfold valid_state. rewrite length_merge. lia. Qed.

Lemma valid_state_deserialize arr buf :
  valid_state arr → valid_state (state_of (fst (deserialize' arr buf))).
Proof.
  unfold valid_state. intros Harr.
  destruct (length_deserialize arr buf) as [-> | H]; assumption.
Qed.

(** C6. Every state built from the empty one by [add], [merge] and
    [deserialize] calls, returning or throwing, has at most
    [0xFFFFFF] slots. *)
Theorem reachable_bounded c (s : Array V) :
  reachable c readVarUInt deserializeBinary s →
  N.of_nat (length s) ≤ MAX_SIZE.
Proof.
  induction 1 as [| s value position _ IH | dst src _ IHd _ IHs | s buf _ IH].
  - simpl. discriminate.
  - rewrite length_add.
    destruct (decide (accepted c position)) as [[Hp _] | _]; lia.
  - rewrite length_merge. lia.
  - destruct (length_deserialize s buf) as [-> | H]; assumption.
Qed.

(** C8. With a configured length, an [add] at or beyond it returns
    without touching the state, so that the state serializes and
    finalizes as it did before the call. *)
Theorem add_beyond_length_ignored c (arr : Array V) value position :
  length_to_resize c ≠ 0 →
  length_to_resize c ≤ position →
  add c arr value position = Done arr ∧
  serialize' (state_of (add c arr value position)) = serialize' arr ∧
  finalize c (state_of (add c arr value position)) = finalize c arr ∧
  ∀ to, insertResultInto c (state_of (add c arr value position)) to
        = insertResultInto c arr to.
Proof using Type.
  intros Hset Hpos.
  assert (H : add c arr value position = Done arr).
  { unfold add. destruct (decide _) as [_ | Hn]; [reflexivity |].
    destruct Hn. split; assumption. }
  rewrite H. simpl. repeat split.
Qed.

(** C9. Past the configured-length rule, [add] at a position of
    [0xFFFFFF] or more throws [TOO_LARGE_ARRAY_SIZE] and leaves the
    state alone; [deserialize] throws it exactly when the size it read is
    above [0xFFFFFF], again with the state untouched. *)
Theorem too_large_array_size c (arr : Array V) :
  (∀ value position,
     ¬ (length_to_resize c ≠ 0 ∧ length_to_resize c ≤ position) →
     MAX_SIZE ≤ position →
     add c arr value position = Thrown (Raised TOO_LARGE_ARRAY_SIZE) arr) ∧
  (∀ buf,
     (∃ arr', fst (deserialize' arr buf)
              = Thrown (Raised TOO_LARGE_ARRAY_SIZE) arr')
     ↔ (∃ size rest, readVarUInt buf = Some (size, rest) ∧ MAX_SIZE < size)) ∧
  (∀ buf size rest,
     readVarUInt buf = Some (size, rest) → MAX_SIZE < size →
     deserialize' arr buf = (Thrown (Raised TOO_LARGE_ARRAY_SIZE) arr, rest)).
Proof using Type.
  split; [| split].
  - intros value position Hcut Hbig. unfold add.
    destruct (decide _) as [Hd | _]; [destruct (Hcut Hd) |].
    destruct (decide _) as [_ | Hd]; [reflexivity | destruct (Hd Hbig)].
  - intros buf. unfold deserialize. split.
    + intros [arr' H].
      destruct (readVarUInt buf) as [[size rest] |]; [| discriminate].
      destruct (decide (MAX_SIZE < size)) as [Hbig | _];
        [exists size, rest; split; [reflexivity | exact Hbig] |].
      exfalso. revert H.
      generalize (resize (N.to_nat size) Null arr) 0%nat rest.
      induction (N.to_nat size) as [| count IH]; intros l i b; simpl;
        [discriminate |].
      destruct (readBinary_UInt8 b) as [[is_null b'] |]; [| discriminate].
      destruct (decide (is_null = 0)); [| apply IH].
      destruct (deserializeBinary b') as [[elem b''] |];
        [apply IH | discriminate].
    + intros (size & rest & -> & Hbig).
      destruct (decide (MAX_SIZE < size)) as [_ | Hd];
        [exists arr; reflexivity | destruct (Hd Hbig)].
  - intros buf size rest Hread Hbig. unfold deserialize. rewrite Hread.
    destruct (decide (MAX_SIZE < size)) as [_ | Hd];
      [reflexivity | destruct (Hd Hbig)].
Qed.

(** *** Round trip *)

Hypothesis readVarUInt_writeVarUInt' :
  ∀ n rest, n ≤ MAX_SIZE → readVarUInt (writeVarUInt n ++ rest) = Some (n, rest).

Hypothesis deserializeBinary_serializeBinary :
  ∀ v rest,
    deserializeBinary (serializeBinary (Value v) ++ rest) = Some (Value v, rest).

Lemma serialize_unfold arr :
  serialize' arr
  = writeVarUInt (N.of_nat (length arr)) ++ concat (serialize_elem' <$> arr).
Proof.
  unfold serialize. generalize (writeVarUInt (N.of_nat (length arr))).
  induction arr as [| elem arr IH]; intros out; simpl.
  - now rewrite app_nil_r.
  - rewrite IH. now rewrite <- app_assoc.
Qed.

Lemma deserialize_loop_serialized (todo : Array V) :
  ∀ (read : Array V) (rest : Bytes),
    deserialize_loop' (length todo) (length read)
      (read ++ replicate (length todo) Null)
      (concat (serialize_elem' <$> todo) ++ rest)
    = (Done (read ++ todo), rest).
Proof.
  induction todo as [| elem todo IH]; intros read rest.
  - simpl. reflexivity.
  - specialize (IH (read ++ [elem]) rest).
    rewrite length_app, <- !app_assoc in IH. simpl in IH.
    replace (length read + 1)%nat with (S (length read)) in IH by lia.
    destruct elem as [| v]; simpl.
    + destruct (decide (1 mod 256 = 0)) as [H | _]; [discriminate H |].
      exact IH.
    + destruct (decide (0 mod 256 = 0)) as [_ | H]; [| now destruct H].
      rewrite <- app_assoc, deserializeBinary_serializeBinary.
      rewrite insert_app_r_alt by lia.
      rewrite Nat.sub_diag. simpl. exact IH.
Qed.

(** C3. A state within the bound, serialized and then deserialized into
    a fresh state, comes back as it was: as many slots, empty where they
    were empty, and with the same values elsewhere; the read buffer is
    left at the end of the encoding. *)
Theorem deserialize_serialize (s : Array V) (rest : Bytes) :
  valid_state s →
  deserialize' [] (serialize' s ++ rest) = (Done s, rest).
Proof.
  intros Hs. unfold valid_state in Hs.
  rewrite serialize_unfold, <- app_assoc.
  unfold deserialize. rewrite readVarUInt_writeVarUInt' by exact Hs.
  destruct (decide _) as [? | _]; [lia |].
  rewrite Nat2N.id, resize_nil.
  apply (deserialize_loop_serialized s []).
Qed.

End CodecProperties.

(** *** insertResultInto *)

Lemma insertResultInto_data c arr to :
  getData (insertResultInto c arr to)
  = getData to ++ (emitted c <$> arr)
    ++ replicate (N.to_nat (output_length c arr) - length arr) (default_value c).
Proof.
  unfold insertResultInto, output_length. simpl.
  rewrite app_assoc. f_equal.
  generalize (getData to) as d.
  induction arr as [| elem arr IH]; intros d; simpl.
  - now rewrite app_nil_r.
  - rewrite IH. unfold emitted.
    destruct (isNull elem); simpl; now rewrite <- app_assoc.
Qed.

Lemma insertResultInto_offsets c arr to :
  getOffsets (insertResultInto c arr to)
  = getOffsets to
    ++ [wrap64 (offsets_back (getOffsets to) + output_length c arr)].
Proof. reflexivity. Qed.

Lemma offsets_back_snoc (offsets : list N) (x : N) :
  offsets_back (offsets ++ [x]) = x.
Proof. apply last_last. Qed.

Lemma offsetAt_length (offsets : list N) :
  offsetAt offsets (length offsets) = offsets_back offsets.
Proof.
  destruct offsets as [| x offsets] using rev_ind; [reflexivity |].
  rewrite offsets_back_snoc, length_app. simpl.
  replace (length offsets + 1)%nat with (S (length offsets)) by lia.
  simpl. now rewrite lookup_app_r, Nat.sub_diag by lia.
Qed.

Lemma output_length_bounded c arr :
  valid_config c → valid_state arr → output_length c arr ≤ MAX_SIZE.
Proof.
  unfold valid_config, valid_state, output_length.
  destruct (decide _); lia.
Qed.

Lemma wrap64_small (x : N) : x < 2 ^ 64 → wrap64 x = x.
Proof. apply N.mod_small. Qed.

(** Where the state is no longer than the array it finalizes to,
    [insertResultInto] adds exactly one row to a consistent column: the
    slots, each empty one replaced by the default, padded with defaults up
    to the output length; and the column stays consistent. *)
Lemma insertResultInto_row c arr to :
  consistent to →
  offsets_back (getOffsets to) + output_length c arr < 2 ^ 64 →
  N.of_nat (length arr) ≤ output_length c arr →
  consistent (insertResultInto c arr to) ∧
  rowAt (insertResultInto c arr to) (length (getOffsets to))
  = (emitted c <$> arr)
    ++ replicate (N.to_nat (output_length c arr) - length arr) (default_value c).
Proof.
  unfold consistent. intros Hto Hfit Hlen.
  assert (Hrow : length ((emitted c <$> arr)
            ++ replicate (N.to_nat (output_length c arr) - length arr)
                 (default_value c))
          = N.to_nat (output_length c arr)).
  { rewrite length_app, length_fmap, length_replicate. lia. }
  split.
  - rewrite insertResultInto_data, insertResultInto_offsets, offsets_back_snoc.
    rewrite wrap64_small by exact Hfit.
    rewrite length_app, Hrow. lia.
  - unfold rowAt.
    rewrite insertResultInto_data, insertResultInto_offsets.
    replace (offsetAt _ (S (length (getOffsets to))))
      with (wrap64 (offsets_back (getOffsets to) + output_length c arr)).
    2:{ simpl. now rewrite lookup_app_r, Nat.sub_diag by lia. }
    replace (offsetAt _ (length (getOffsets to)))
      with (offsets_back (getOffsets to)).
    2:{ rewrite <- offsetAt_length.
        destruct (length (getOffsets to)) as [| n] eqn:E; [reflexivity |].
        simpl. rewrite lookup_app_l by lia. reflexivity. }
    rewrite wrap64_small by exact Hfit.
    rewrite <- Hto, Nat2N.id, drop_app_length.
    replace (N.to_nat (_ - _)) with (N.to_nat (output_length c arr)) by lia.
    rewrite <- Hrow at 1. apply firstn_all.
Qed.

(** A state longer than the configured length has all of its slots put
    into the data while the offsets advance by the configured length
    only: the column does not stay consistent. *)
Lemma insertResultInto_longer c arr to :
  consistent to →
  offsets_back (getOffsets to) + output_length c arr < 2 ^ 64 →
  length_to_resize c ≠ 0 →
  length_to_resize c < N.of_nat (length arr) →
  N.of_nat (length (getData (insertResultInto c arr to)))
  = offsets_back (getOffsets (insertResultInto c arr to))
    + (N.of_nat (length arr) - length_to_resize c) ∧
  ¬ consistent (insertResultInto c arr to).
Proof.
  unfold consistent. intros Hto Hfit Hset Hlong.
  rewrite insertResultInto_data, insertResultInto_offsets, offsets_back_snoc.
  rewrite wrap64_small by exact Hfit.
  rewrite !length_app, length_fmap, length_replicate.
  unfold output_length in *.
  destruct (decide (length_to_resize c ≠ 0)) as [_ | Hn];
    [| now destruct Hn].
  split; lia.
Qed.

(** The finalized array of a state. *)
Lemma finalize_unfold c arr :
  valid_config c → valid_state arr →
  finalize c arr
  = take (N.to_nat (output_length c arr))
      ((emitted c <$> arr)
       ++ replicate (N.to_nat (output_length c arr) - length arr)
            (default_value c)).
Proof.
  intros Hc Harr. unfold finalize, rowAt.
  rewrite insertResultInto_data, insertResultInto_offsets. simpl.
  pose proof (output_length_bounded c arr Hc Harr) as Hb.
  rewrite wrap64_small
    by (apply N.le_lt_trans with MAX_SIZE; [exact Hb | reflexivity]).
  now rewrite N.sub_0_r.
Qed.

Lemma finalize_lookup c arr i :
  valid_config c → valid_state arr →
  finalize c arr !! i
  = if decide (i < N.to_nat (output_length c arr))%nat
    then Some (emitted c (at_ arr i))
    else None.
Proof.
  intros Hc Harr. rewrite finalize_unfold by assumption.
  rewrite lookup_take.
  destruct (decide (i < N.to_nat (output_length c arr))%nat) as [Hi | Hi];
    [| reflexivity].
  destruct (decide (i < length arr)%nat) as [Hin | Hout].
  - rewrite lookup_app_l by (rewrite length_fmap; exact Hin).
    rewrite list_lookup_fmap, at_lookup_lt by exact Hin. reflexivity.
  - rewrite lookup_app_r by (rewrite length_fmap; lia).
    rewrite at_ge by lia. rewrite length_fmap.
    apply lookup_replicate. split; [reflexivity | lia].
Qed.

Lemma length_finalize c arr :
  valid_config c → valid_state arr →
  length (finalize c arr) = N.to_nat (output_length c arr).
Proof.
  intros Hc Harr. rewrite finalize_unfold by assumption.
  rewrite length_take, length_app, length_fmap, length_replicate. lia.
Qed.

Lemma valid_state_add c arr value position :
  valid_state arr → valid_state (state_of (add c arr value position)).
Proof.
  unfold valid_state. rewrite length_add.
  destruct (decide (accepted c position)) as [[Hp _] | _]; lia.
Qed.

Lemma accepted_lt_output c arr position :
  accepted c position →
  (N.to_nat position < length arr)%nat →
  (N.to_nat position < N.to_nat (output_length c arr))%nat.
Proof.
  intros [_ Hacc] Hlen. unfold output_length.
  destruct (decide _); lia.
Qed.

Lemma position_lt_length_add c arr value position :
  accepted c position →
  (N.to_nat position < length (state_of (add c arr value position)))%nat.
Proof.
  intros Hacc. rewrite length_add.
  destruct (decide _); [lia | tauto].
Qed.

(** C2 (amended). When [add] accepts the position, the slot is still
    empty and the first value is not null, then after adding [A] and then
    [B] at that position the finalized array holds [A] there. *)
Theorem first_write_wins c (s : Array V) position (A : V) (B : Field V) :
  valid_config c → valid_state s →
  accepted c position →
  isNull (at_ s (N.to_nat position)) = true →
  let s1 := state_of (add c s (Value A) position) in
  let s2 := state_of (add c s1 B position) in
  add c s1 B position = Done s1 ∧
  finalize c s2 !! N.to_nat position = Some (Value A).
Proof.
  intros Hc Hs Hacc Hempty s1 s2.
  assert (H1 : at_ s1 (N.to_nat position) = Value A).
  { unfold s1. rewrite at_add.
    destruct (decide _) as [_ | Hn]; [reflexivity | tauto]. }
  assert (Hsame : state_of (add c s1 B position) = s1).
  { pose proof (add_at_written c s1 B _ A H1) as Hk.
    now rewrite N2Nat.id in Hk. }
  split.
  - destruct (add_cases c s1 B position)
      as [(_ & H & H') | [(_ & _ & H) | (_ & [(_ & H) | [(E & _) | (_ & _ & H)]])]].
    + destruct Hacc as [_ [? | ?]]; lia.
    + destruct Hacc as [? _]; lia.
    + pose proof (position_lt_length_add c s (Value A) position Hacc) as Hlt.
      fold s1 in Hlt. lia.
    + exact E.
    + rewrite H1 in H. discriminate.
  - unfold s2. rewrite Hsame.
    rewrite finalize_lookup by (try apply valid_state_add; assumption).
    pose proof (position_lt_length_add c s (Value A) position Hacc) as Hlt.
    pose proof (accepted_lt_output c _ position Hacc Hlt) as Hout.
    destruct (decide _) as [_ | Hn]; [| tauto].
    fold s1. rewrite H1. reflexivity.
Qed.

(** C10. Adding a null value leaves an empty slot empty.  When [add]
    accepts the position, a value added there afterwards is stored, and
    as long as the slot stays empty the finalized array holds the default
    value there. *)
Theorem null_value_leaves_slot_empty c (s : Array V) position :
  isNull (at_ s (N.to_nat position)) = true →
  let s1 := state_of (add c s Null position) in
  at_ s1 (N.to_nat position) = Null ∧
  (accepted c position →
   ∀ v : V, ∃ s2, add c s1 (Value v) position = Done s2 ∧
                  at_ s2 (N.to_nat position) = Value v) ∧
  (valid_config c → valid_state s → accepted c position →
   finalize c s1 !! N.to_nat position = Some (default_value c)).
Proof.
  intros Hempty s1.
  assert (H1 : at_ s1 (N.to_nat position) = Null).
  { unfold s1. rewrite at_add.
    destruct (decide _); [reflexivity | now apply isNull_true]. }
  split; [exact H1 | split].
  - intros Hacc v.
    pose proof (at_add c s1 (Value v) position (N.to_nat position)) as Hat.
    destruct (decide _) as [_ | Hn] in Hat;
      [| destruct Hn; rewrite H1; auto].
    destruct (add c s1 (Value v) position) as [s2 | e s2] eqn:E.
    + exists s2. split; [reflexivity | exact Hat].
    + exfalso.
      destruct (add_cases c s1 (Value v) position)
        as [(H & _) | [(_ & _ & H) | (_ & [(H & _) | [(H & _) | (H & _)]])]];
        try congruence.
      destruct Hacc as [? _]; lia.
  - intros Hc Hs Hacc.
    rewrite finalize_lookup by (try apply valid_state_add; assumption).
    pose proof (position_lt_length_add c s Null position Hacc) as Hlt.
    pose proof (accepted_lt_output c _ position Hacc Hlt) as Hout.
    destruct (decide _) as [_ | Hn]; [| tauto].
    fold s1. rewrite H1. reflexivity.
Qed.

End Properties.

(** ** The methods on concrete states *)

(** The scenarios of the specification, on [UInt64] values with default
    zero. *)
Example scenario_A :
  let c : Config N := mkConfig (Value 0) 0 in
  finalize c (state_of (add c (state_of (add c [] (Value 10) 0)) (Value 20) 2))
  = [Value 10; Value 0; Value 20].
Proof. reflexivity. Qed.

Example scenario_B :
  merge [Value 1; Null; Value 3] [Null; Value 2; Null]
  = [Value 1; Value 2; Value 3] :> Array N.
Proof. reflexivity. Qed.

Example scenario_C :
  let c : Config N := mkConfig (Value 77) 5 in
  finalize c (state_of (add c [] (Value 7) 0))
  = [Value 7; Value 77; Value 77; Value 77; Value 77].
Proof. reflexivity. Qed.

Example scenario_D :
  let c : Config N := mkConfig (Value 0) 3 in
  add c [] (Value 9) 5 = Done [] ∧
  finalize c (state_of (add c [] (Value 9) 5)) = [Value 0; Value 0; Value 0].
Proof. split; reflexivity. Qed.

Example writeVarUInt_max :
  VarInt.writeVarUInt MAX_SIZE = [255; 255; 255; 7].
Proof. reflexivity. Qed.

(** C1. With a configured length of one, [deserialize] accepts a stream
    that declares two slots.  Finalizing that state puts both values into
    the data of the output column while the offsets record a row of one
    element: the column is left inconsistent, and the row of the next
    state finalized into it, [[30]], reads back as [[20]]. *)
Theorem insertResultInto_longer_state :
  let c : Config Byte.byte := mkConfig (Value Byte.x00) 1 in
  let s := [Value Byte.x0a; Value Byte.x14] in
  let to := insertResultInto c s emptyColumn in
  deserialize VarInt.readVarUInt SerializationUInt8.deserializeBinary
    [] [2; 0; 10; 0; 20] = (Done s, []) ∧
  getData to = [Value Byte.x0a; Value Byte.x14] ∧
  getOffsets to = [1] ∧
  ¬ consistent to ∧
  rowAt (insertResultInto c [Value Byte.x1e] to) 1 = [Value Byte.x14].
Proof.
  repeat split; try reflexivity.
  unfold consistent. simpl. discriminate.
Qed.

(** C2 fails as stated: after a null value, the value added next at the
    same position is the one the finalized array holds. *)
Lemma null_then_value_is_overwritten :
  let c : Config N := mkConfig (Value 0) 0 in
  let A : Field N := Null in
  let B : Field N := Value 5 in
  let s := state_of (add c (state_of (add c [] A 0)) B 0) in
  finalize c s !! 0%nat = Some B ∧ finalize c s !! 0%nat ≠ Some A.
Proof. split; [reflexivity | discriminate]. Qed.

(** The theorems above, applied to concrete states and byte streams. *)

Lemma first_write_wins_witness :
  let c : Config N := mkConfig (Value 0) 4 in
  let s : Array N := [Value 1; Null] in
  valid_config c ∧ valid_state s ∧ accepted c 2 ∧
  isNull (at_ s 2) = true ∧
  finalize c (state_of (add c (state_of (add c s (Value 10) 2)) (Value 20) 2))
    !! 2%nat = Some (Value 10).
Proof.
  intros c s.
  assert (Hc : valid_config c) by bound.
  assert (Hs : valid_state s) by bound.
  assert (Hacc : accepted c 2) by bound.
  split; [exact Hc | split; [exact Hs | split; [exact Hacc |]]].
  split; [reflexivity |].
  exact (proj2 (first_write_wins c s 2 10 (Value 20) Hc Hs Hacc eq_refl)).
Defined.

Lemma deserialize_serialize_witness :
  let s := [Value Byte.x0a; Null; Value Byte.x14] in
  valid_state s ∧
  deserialize VarInt.readVarUInt SerializationUInt8.deserializeBinary []
    (serialize VarInt.writeVarUInt SerializationUInt8.serializeBinary s ++ [7])
  = (Done s, [7]).
Proof.
  intros s.
  assert (Hs : valid_state s) by bound.
  split; [exact Hs |].
  apply (deserialize_serialize
           VarInt.writeVarUInt VarInt.readVarUInt
           SerializationUInt8.serializeBinary
           SerializationUInt8.deserializeBinary).
  - intros n rest Hn. apply readVarUInt_writeVarUInt.
    eapply N.le_lt_trans; [exact Hn | reflexivity].
  - apply deserializeBinary_serializeBinary_UInt8.
  - exact Hs.
Defined.

Lemma merge_comm_assoc_disjoint_witness :
  let a : Array N := [Value 1; Null; Null] in
  let b : Array N := [Null; Value 2] in
  let d : Array N := [Null; Null; Value 3; Value 4] in
  merge a b = merge b a ∧ merge (merge a b) d = merge a (merge b d).
Proof.
  intros a b d.
  apply (merge_comm_assoc_disjoint a b d); reflexivity.
Defined.

Lemma reachable_bounded_witness :
  let c : Config Byte.byte := mkConfig (Value Byte.x00) 0 in
  let s := state_of (fst (deserialize VarInt.readVarUInt
                            SerializationUInt8.deserializeBinary
                            (state_of (add c [] (Value Byte.x0a) 3))
                            [2; 0; 20; 1])) in
  N.of_nat (length (merge s s)) ≤ MAX_SIZE.
Proof.
  intros c s.
  apply (reachable_bounded VarInt.readVarUInt
           SerializationUInt8.deserializeBinary c).
  apply reachable_merge; apply reachable_deserialize, reachable_add,
    reachable_empty.
Defined.

Lemma non_null_slot_kept_witness :
  let c : Config N := mkConfig (Value 0) 0 in
  let arr : Array N := [Null; Value 8] in
  at_ arr 1 = Value 8 ∧
  state_of (add c arr (Value 9) 1) = arr ∧
  at_ (state_of (add c arr (Value 9) 5)) 1 = Value 8 ∧
  at_ (merge arr [Value 3; Value 4]) 1 = Value 8.
Proof.
  intros c arr.
  destruct (non_null_slot_kept c arr 1 8 eq_refl) as (Hadd & Hany & Hmerge).
  split; [reflexivity |].
  split; [exact (Hadd (Value 9)) |].
  split; [exact (Hany (Value 9) 5) | exact (Hmerge [Value 3; Value 4])].
Defined.

Lemma add_beyond_length_ignored_witness :
  let c : Config Byte.byte := mkConfig (Value Byte.x00) 3 in
  let arr := [Value Byte.x0a] in
  length_to_resize c ≠ 0 ∧ length_to_resize c ≤ 5 ∧
  add c arr (Value Byte.x14) 5 = Done arr ∧
  serialize VarInt.writeVarUInt SerializationUInt8.serializeBinary
    (state_of (add c arr (Value Byte.x14) 5))
  = serialize VarInt.writeVarUInt SerializationUInt8.serializeBinary arr ∧
  finalize c (state_of (add c arr (Value Byte.x14) 5)) = finalize c arr.
Proof.
  intros c arr.
  assert (Hset : length_to_resize c ≠ 0) by (simpl; lia).
  assert (Hpos : length_to_resize c ≤ 5) by (simpl; lia).
  destruct (add_beyond_length_ignored
              VarInt.writeVarUInt SerializationUInt8.serializeBinary
              c arr (Value Byte.x14) 5 Hset Hpos) as (Hadd & Hser & Hfin & _).
  split; [exact Hset | split; [exact Hpos |]].
  split; [exact Hadd | split; [exact Hser | exact Hfin]].
Defined.

Lemma too_large_array_size_witness :
  let c : Config Byte.byte := mkConfig (Value Byte.x00) 0 in
  let arr := [Value Byte.x0a] in
  add c arr (Value Byte.x14) MAX_SIZE = Thrown (Raised TOO_LARGE_ARRAY_SIZE) arr ∧
  deserialize VarInt.readVarUInt SerializationUInt8.deserializeBinary arr
    [0x80; 0x80; 0x80; 0x08; 1]
  = (Thrown (Raised TOO_LARGE_ARRAY_SIZE) arr, [1]).
Proof.
  intros c arr.
  destruct (too_large_array_size VarInt.readVarUInt
              SerializationUInt8.deserializeBinary c arr)
    as (Hadd & _ & Hdes).
  split.
  - apply Hadd; [simpl; lia | bound].
  - apply (Hdes _ 0x1000000); [reflexivity | bound].
Defined.

Lemma null_value_leaves_slot_empty_witness :
  let c : Config N := mkConfig (Value 7) 4 in
  let s : Array N := [Value 1] in
  let s1 := state_of (add c s Null 2) in
  isNull (at_ s 2) = true ∧
  at_ s1 2 = Null ∧
  (∃ s2, add c s1 (Value 5) 2 = Done s2 ∧ at_ s2 2 = Value 5) ∧
  finalize c s1 !! 2%nat = Some (Value 7).
Proof.
  intros c s s1.
  destruct (null_value_leaves_slot_empty c s 2 eq_refl) as (Hnull & Hnext & Hfin).
  assert (Hacc : accepted c 2) by bound.
  split; [reflexivity |].
  split; [exact Hnull |].
  split; [exact (Hnext Hacc 5) |].
  apply Hfin; [bound | bound | exact Hacc].
Defined.

(** ** How the methods compose *)

Section Composition.

Context {V : Type}.

Implicit Types (arr lhs rhs a b s t u : Array V) (c : Config V) (value : Field V).
Implicit Types (position : N) (to : ColumnArray V) (i p : nat).
Implicit Types (rows : list (Field V * N)).

Lemma first_non_null_idem (x : Field V) : first_non_null x x = x.
Proof. destruct x; reflexivity. Qed.

Lemma first_non_null_Null_r (x : Field V) : first_non_null x Null = x.
Proof. destruct x; reflexivity. Qed.

Lemma merge_assoc a b d : merge (merge a b) d = merge a (merge b d).
Proof.
  apply array_eq.
  - rewrite !length_merge. lia.
  - intros i. rewrite !at_merge. apply first_non_null_assoc.
Qed.

Lemma merge_nil_r a : merge a [] = a.
Proof. reflexivity. Qed.

Lemma merge_nil_l a : merge [] a = a.
Proof.
  apply array_eq.
  - rewrite length_merge. simpl. lia.
  - intros i. rewrite at_merge. reflexivity.
Qed.

(** X1. Merging is associative whatever the states hold, and merging a state
    into itself, or a second time into the result, changes nothing. *)
Theorem merge_assoc_idempotent a b d :
  merge (merge a b) d = merge a (merge b d) ∧
  merge a a = a ∧
  merge (merge a b) b = merge a b.
Proof.
  split; [apply merge_assoc | split].
  - apply array_eq.
    + rewrite length_merge. lia.
    + intros i. rewrite at_merge. apply first_non_null_idem.
  - apply array_eq.
    + rewrite !length_merge. lia.
    + intros i. rewrite !at_merge, first_non_null_assoc.
      now rewrite first_non_null_idem.
Qed.

(** *** add as a merge *)

Lemma add_not_accepted c arr value position :
  ¬ accepted c position → state_of (add c arr value position) = arr.
Proof.
  intros Hn.
  destruct (add_cases c arr value position)
    as [(-> & _) | [(-> & _) | (Hacc & _)]]; [reflexivity .. |].
  destruct (Hn Hacc).
Qed.

Lemma add_Done c arr value position :
  ¬ (¬ (length_to_resize c ≠ 0 ∧ length_to_resize c ≤ position)
     ∧ MAX_SIZE ≤ position) →
  add c arr value position = Done (state_of (add c arr value position)).
Proof.
  intros Hok.
  destruct (add_cases c arr value position)
    as [(-> & _) | [(_ & H1 & H2) | (_ & [(-> & _) | [(-> & _) | (-> & _)]])]];
    try reflexivity.
  destruct Hok. split; assumption.
Qed.

Lemma add_Done_inv c arr arr' value position :
  add c arr value position = Done arr' →
  ¬ (¬ (length_to_resize c ≠ 0 ∧ length_to_resize c ≤ position)
     ∧ MAX_SIZE ≤ position).
Proof.
  intros Hadd [Hcut Hbig]. unfold add in Hadd.
  destruct (decide _) as [Hd | _] in Hadd; [destruct (Hcut Hd) |].
  destruct (decide _) as [_ | Hd] in Hadd; [discriminate | destruct (Hd Hbig)].
Qed.

Lemma add_merge_singleton c arr value position :
  state_of (add c arr value position)
  = merge arr (state_of (add c [] value position)).
Proof.
  apply array_eq.
  - rewrite length_merge, !length_add. simpl.
    destruct (decide (accepted c position)); lia.
  - intros i. rewrite at_merge, !at_add.
    replace (at_ [] i) with (@Null V) by (symmetry; apply at_ge; simpl; lia).
    unfold first_non_null.
    destruct (isNull (at_ arr i)) eqn:E; repeat case_decide;
      try reflexivity;
      try (exfalso; simpl in *; intuition discriminate).
    now apply isNull_true.
Qed.

(** X2. An [add] is a [merge] with the state that the same [add] builds from
    the empty one. *)
Theorem add_is_merge c arr value position :
  state_of (add c arr value position)
  = merge arr (state_of (add c [] value position)) ∧
  (accepted c position →
   state_of (add c [] value position)
   = replicate (N.to_nat position) Null ++ [value]).
Proof.
  split; [apply add_merge_singleton |].
  intros Hacc.
  destruct (add_cases c [] value position)
    as [(_ & H1 & H2) | [(_ & _ & H) | (_ & [(-> & _) | [(_ & H & _) | (_ & H & _)]])]].
  - destruct Hacc as [_ [? | ?]]; lia.
  - destruct Hacc as [? _]; lia.
  - simpl. rewrite resize_nil.
    replace (N.to_nat position + 1)%nat with (S (N.to_nat position)) by lia.
    rewrite replicate_S_end.
    rewrite insert_app_r_alt by (rewrite length_replicate; lia).
    rewrite length_replicate, Nat.sub_diag. reflexivity.
  - simpl in H. lia.
  - simpl in H. lia.
Qed.

(** X3. Two [add]s at different positions can be swapped. *)
Theorem add_commute c arr value1 value2 position1 position2 :
  position1 ≠ position2 →
  state_of (add c (state_of (add c arr value1 position1)) value2 position2)
  = state_of (add c (state_of (add c arr value2 position2)) value1 position1).
Proof.
  intros Hne.
  rewrite (add_merge_singleton c (state_of _) value2),
    (add_merge_singleton c arr value1),
    (add_merge_singleton c (state_of _) value1),
    (add_merge_singleton c arr value2).
  rewrite !merge_assoc. f_equal.
  apply array_eq.
  - rewrite !length_merge. lia.
  - intros i. rewrite !at_merge. apply first_non_null_comm.
    rewrite !at_add.
    replace (at_ [] i) with (@Null V) by (symmetry; apply at_ge; simpl; lia).
    repeat case_decide; try (now left); try (now right).
    exfalso. apply Hne. lia.
Qed.

(** X4. Repeating an [add] changes nothing. *)
Theorem add_idempotent c arr value position :
  state_of (add c (state_of (add c arr value position)) value position)
  = state_of (add c arr value position).
Proof.
  rewrite (add_merge_singleton c (state_of _) value),
    (add_merge_singleton c arr value).
  rewrite merge_assoc. f_equal.
  apply array_eq.
  - rewrite length_merge. lia.
  - intros i. rewrite at_merge. apply first_non_null_idem.
Qed.

(** X5. An [add] touches no slot but the one at its position, and never
    makes the state shorter nor longer than the position asks for. *)
Theorem add_frame c arr value position :
  (∀ i, i ≠ N.to_nat position →
        at_ (state_of (add c arr value position)) i = at_ arr i) ∧
  (length arr ≤ length (state_of (add c arr value position)))%nat ∧
  (length (state_of (add c arr value position))
   ≤ length arr `max` (N.to_nat position + 1))%nat.
Proof.
  split; [| split].
  - intros i Hi. rewrite at_add.
    destruct (decide _) as [(_ & -> & _) | _]; [now destruct Hi | reflexivity].
  - rewrite length_add. destruct (decide _); lia.
  - rewrite length_add. destruct (decide _); lia.
Qed.

(** *** Rows *)

Lemma add_rows_app c arr rows1 rows2 s :
  add_rows c arr rows1 = Done s →
  add_rows c arr (rows1 ++ rows2) = add_rows c s rows2.
Proof.
  revert arr. induction rows1 as [| [value position] rows1 IH]; intros arr H.
  - injection H as ->. reflexivity.
  - simpl in *.
    destruct (add c arr value position) as [arr' | e arr']; [| discriminate].
    now apply IH.
Qed.

Lemma add_rows_merge c rows :
  ∀ u t, add_rows c u rows = Done t →
    ∀ s, add_rows c (merge s u) rows = Done (merge s t).
Proof.
  induction rows as [| [value position] rows IH]; intros u t H s.
  - injection H as ->. reflexivity.
  - simpl in *.
    destruct (add c u value position) as [u' | e u'] eqn:E; [| discriminate].
    pose proof (add_Done_inv _ _ _ _ _ E) as Hok.
    rewrite (add_Done c (merge s u) value position Hok).
    rewrite add_merge_singleton, merge_assoc, <- add_merge_singleton.
    rewrite E. simpl. now apply IH.
Qed.

(** X6. The partial states of two runs of rows, merged, are the state of the
    one run over the rows of the first followed by the rows of the
    second. *)
Theorem merge_add_rows c rows1 rows2 s1 s2 :
  add_rows c [] rows1 = Done s1 →
  add_rows c [] rows2 = Done s2 →
  add_rows c [] (rows1 ++ rows2) = Done (merge s1 s2).
Proof.
  intros H1 H2.
  rewrite (add_rows_app c [] rows1 rows2 s1 H1).
  rewrite <- (merge_nil_r s1) at 1.
  now apply add_rows_merge.
Qed.

Lemma at_add_rows c rows :
  ∀ arr s, add_rows c arr rows = Done s →
    ∀ i, at_ s i = first_non_null (at_ arr i) (first_value c rows i).
Proof.
  induction rows as [| [value position] rows IH]; intros arr s H i.
  - injection H as ->. simpl. now rewrite first_non_null_Null_r.
  - simpl in *.
    destruct (add c arr value position) as [arr' | e arr'] eqn:E; [| discriminate].
    rewrite (IH arr' s H i).
    replace arr' with (state_of (add c arr value position)) by now rewrite E.
    rewrite at_add. unfold first_non_null.
    destruct (isNull (at_ arr i)) eqn:En; repeat case_decide;
      rewrite ?En; try reflexivity; exfalso; simpl in *;
      intuition (discriminate || lia).
Qed.

Lemma valid_state_add_rows c rows :
  ∀ arr s, add_rows c arr rows = Done s → valid_state arr → valid_state s.
Proof.
  induction rows as [| [value position] rows IH]; intros arr s H Harr.
  - now injection H as ->.
  - simpl in H.
    destruct (add c arr value position) as [arr' | e arr'] eqn:E; [| discriminate].
    apply (IH arr' s H).
    replace arr' with (state_of (add c arr value position)) by now rewrite E.
    now apply valid_state_add.
Qed.

(** X7. After a run of rows from the empty state, a slot holds the first
    value that is not null among the rows accepted at its position, and
    the finalized array holds that value there, or the default when there
    is none. *)
Theorem add_rows_first_value c rows s i :
  valid_config c →
  add_rows c [] rows = Done s →
  at_ s i = first_value c rows i ∧
  finalize c s !! i
  = if decide (i < N.to_nat (output_length c s))%nat
    then Some (emitted c (first_value c rows i))
    else None.
Proof.
  intros Hc H.
  assert (Hat : at_ s i = first_value c rows i).
  { rewrite (at_add_rows c rows [] s H i).
    now rewrite (at_ge []) by (simpl; lia). }
  split; [exact Hat |].
  rewrite finalize_lookup, Hat; [reflexivity | exact Hc |].
  apply (valid_state_add_rows c rows [] s H). bound.
Qed.

(** *** insertResultInto on a column that holds rows already *)

Lemma offsetAt_app_l (offsets : list N) (x : N) n :
  (n ≤ length offsets)%nat → offsetAt (offsets ++ [x]) n = offsetAt offsets n.
Proof.
  destruct n as [| n]; [reflexivity |]. intros Hn. simpl.
  now rewrite lookup_app_l by lia.
Qed.

(** X8. [insertResultInto] adds one offset and only appends to the data, so
    that every row the column held within its data reads as before,
    whatever the state. *)
Theorem insertResultInto_keeps_rows c arr to n :
  (n < length (getOffsets to))%nat →
  offsetAt (getOffsets to) (S n) ≤ N.of_nat (length (getData to)) →
  length (getOffsets (insertResultInto c arr to)) = S (length (getOffsets to)) ∧
  rowAt (insertResultInto c arr to) n = rowAt to n.
Proof.
  intros Hn Hin. split.
  - rewrite insertResultInto_offsets, length_app. simpl. lia.
  - unfold rowAt.
    rewrite insertResultInto_offsets, insertResultInto_data.
    rewrite !offsetAt_app_l by lia.
    set (start := offsetAt (getOffsets to) n).
    set (stop := offsetAt (getOffsets to) (S n)) in *.
    destruct (decide (start ≤ stop)) as [Hle | Hgt].
    + rewrite drop_app_le by lia.
      apply take_app_le. rewrite length_drop. lia.
    + replace (N.to_nat (stop - start)) with 0%nat by lia.
      now rewrite !take_0.
Qed.

Lemma built_fits c s :
  built c s → N.of_nat (length s) ≤ output_length c s.
Proof.
  unfold output_length.
  destruct (decide (length_to_resize c ≠ 0)) as [Hset | _]; [| lia].
  induction 1 as [| s value position _ IH | dst src _ IHd _ IHs].
  - simpl. lia.
  - rewrite length_add.
    destruct (decide (accepted c position)) as [[_ [H0 | Hlt]] | _]; lia.
  - rewrite length_merge. lia.
Qed.

(** X9. A state built by [add] and [merge] under a configuration finalizes
    into a consistent column as one row of the output length, whose
    element [i] is slot [i] when that holds a value and the default
    otherwise; the column stays consistent. *)
Theorem built_insertResultInto c s to :
  built c s →
  consistent to →
  offsets_back (getOffsets to) + output_length c s < 2 ^ 64 →
  let row := rowAt (insertResultInto c s to) (length (getOffsets to)) in
  consistent (insertResultInto c s to) ∧
  length row = N.to_nat (output_length c s) ∧
  ∀ i, (i < N.to_nat (output_length c s))%nat →
       row !! i = Some (emitted c (at_ s i)).
Proof.
  intros Hs Hto Hfit row.
  pose proof (built_fits c s Hs) as Hlen.
  destruct (insertResultInto_row c s to Hto Hfit Hlen) as [Hcons Hrow].
  unfold row. rewrite Hrow. split; [exact Hcons | split].
  - rewrite length_app, length_fmap, length_replicate. lia.
  - intros i Hi.
    destruct (decide (i < length s)%nat) as [Hin | Hout].
    + rewrite lookup_app_l by (rewrite length_fmap; exact Hin).
      rewrite list_lookup_fmap, at_lookup_lt by exact Hin. reflexivity.
    + rewrite lookup_app_r by (rewrite length_fmap; lia).
      rewrite at_ge by lia. rewrite length_fmap.
      apply lookup_replicate. split; [reflexivity | lia].
Qed.

(** X10. With a default value that is not null, [insertResultInto] puts no
    null into the data of the column. *)
Theorem insertResultInto_no_null c arr to :
  isNull (default_value c) = false →
  Forall (λ elem, isNull elem = false) (getData to) →
  Forall (λ elem, isNull elem = false) (getData (insertResultInto c arr to)).
Proof.
  intros Hdef Hto. rewrite insertResultInto_data.
  apply Forall_app. split; [exact Hto |].
  apply Forall_app. split.
  - apply Forall_fmap, Forall_forall. intros elem _. simpl.
    unfold emitted. destruct (isNull elem) eqn:E; assumption.
  - apply Forall_replicate. exact Hdef.
Qed.

End Composition.

(** ** The codec on states that are not fresh, and on streams *)

Section CodecComposition.

Context {V : Type}.

Variable writeVarUInt : N -> Bytes.
Variable readVarUInt : Bytes -> option (N * Bytes).
Variable serializeBinary : Field V -> Bytes.
Variable deserializeBinary : Bytes -> option (Field V * Bytes).

Implicit Types (arr s r : Array V) (rest : Bytes).

(** X11. Whatever the stream holds past the size, a size within the bound is
    the number of slots [deserialize] leaves, whether it returns or
    throws on the way; without such a size the slots are as many as
    before. *)
Theorem length_after_deserialize arr (buf : Bytes) :
  length (state_of (fst (deserialize readVarUInt deserializeBinary arr buf)))
  = match readVarUInt buf with
    | Some (size, _) =>
        if decide (MAX_SIZE < size) then length arr else N.to_nat size
    | None => length arr
    end.
Proof using Type.
  unfold deserialize.
  destruct (readVarUInt buf) as [[size rest] |]; [| reflexivity].
  destruct (decide (MAX_SIZE < size)); [reflexivity |].
  rewrite length_deserialize_loop. apply length_resize.
Qed.

Hypothesis size_reads_back :
  ∀ n rest, n ≤ MAX_SIZE → readVarUInt (writeVarUInt n ++ rest) = Some (n, rest).

Hypothesis element_reads_back :
  ∀ v rest,
    deserializeBinary (serializeBinary (Value v) ++ rest) = Some (Value v, rest).

Lemma deserialize_loop_into (todo : Array V) :
  ∀ (read old : Array V) rest,
    length old = length todo →
    deserialize_loop deserializeBinary (length todo) (length read)
      (read ++ old)
      (concat (serialize_elem serializeBinary <$> todo) ++ rest)
    = (Done (read ++ zip_with first_non_null todo old), rest).
Proof using element_reads_back.
  induction todo as [| elem todo IH]; intros read old rest Hlen.
  - destruct old; [| discriminate]. reflexivity.
  - destruct old as [| o old]; [discriminate |].
    injection Hlen as Hlen.
    destruct elem as [| v]; simpl.
    + destruct (decide (1 mod 256 = 0)) as [H | _]; [discriminate H |].
      specialize (IH (read ++ [o]) old rest Hlen).
      rewrite length_app, <- !app_assoc in IH. simpl in IH.
      replace (length read + 1)%nat with (S (length read)) in IH by lia.
      exact IH.
    + destruct (decide (0 mod 256 = 0)) as [_ | H]; [| now destruct H].
      rewrite <- app_assoc, element_reads_back.
      rewrite insert_app_r_alt by lia.
      rewrite Nat.sub_diag. simpl.
      specialize (IH (read ++ [Value v]) old rest Hlen).
      rewrite length_app, <- !app_assoc in IH. simpl in IH.
      replace (length read + 1)%nat with (S (length read)) in IH by lia.
      exact IH.
Qed.

Lemma deserialize_into arr s rest :
  valid_state s →
  deserialize readVarUInt deserializeBinary arr
    (serialize writeVarUInt serializeBinary s ++ rest)
  = (Done (zip_with first_non_null s (resize (length s) Null arr)), rest).
Proof using size_reads_back element_reads_back.
  intros Hs. unfold valid_state in Hs.
  rewrite serialize_unfold, <- app_assoc.
  unfold deserialize. rewrite size_reads_back by exact Hs.
  destruct (decide _) as [? | _]; [lia |].
  rewrite Nat2N.id.
  apply (deserialize_loop_into s []). apply length_resize.
Qed.

Lemma zip_with_first_non_null_fresh s :
  zip_with first_non_null s (resize (length s) Null []) = s.
Proof.
  rewrite resize_nil, zip_with_replicate_r by lia.
  induction s as [| x s IH]; [reflexivity |].
  rewrite fmap_cons. f_equal; [apply first_non_null_Null_r | exact IH].
Qed.

(** X12. [deserialize] fills the state it is given rather than replacing it:
    of an encoded state it takes the number of slots and the values, and
    where the encoded slot is empty it keeps what the given state holds
    there. *)
Theorem deserialize_into_state arr s rest :
  valid_state s →
  ∃ r,
    deserialize readVarUInt deserializeBinary arr
      (serialize writeVarUInt serializeBinary s ++ rest) = (Done r, rest) ∧
    length r = length s ∧
    ∀ i, (i < length s)%nat → at_ r i = first_non_null (at_ s i) (at_ arr i).
Proof using size_reads_back element_reads_back.
  intros Hs. eexists. split; [apply deserialize_into, Hs | split].
  - rewrite length_zip_with, length_resize. lia.
  - intros i Hi. unfold at_ at 1. rewrite lookup_zip_with.
    rewrite (at_lookup_lt s i Hi). simpl.
    rewrite (at_lookup_lt (resize _ _ _) i) by (rewrite length_resize; exact Hi).
    simpl. rewrite at_resize.
    destruct (decide (i < length s)%nat); [reflexivity | lia].
Qed.

(** X13. The encoding of a state ends where it ends: two streams that start
    with encoded states and are equal hold the same state and the same
    remainder.  In particular different states have different
    encodings. *)
Theorem serialize_self_delimiting (s1 s2 : Array V) (rest1 rest2 : Bytes) :
  valid_state s1 → valid_state s2 →
  serialize writeVarUInt serializeBinary s1 ++ rest1
  = serialize writeVarUInt serializeBinary s2 ++ rest2 →
  s1 = s2 ∧ rest1 = rest2.
Proof using size_reads_back element_reads_back readVarUInt deserializeBinary.
  intros H1 H2 Heq.
  pose proof (deserialize_into [] s1 rest1 H1) as D1.
  pose proof (deserialize_into [] s2 rest2 H2) as D2.
  rewrite Heq, D2 in D1.
  rewrite !zip_with_first_non_null_fresh in D1.
  injection D1 as -> ->. split; reflexivity.
Qed.

End CodecComposition.

(** ** The constructor *)

Section ConstructionProperties.

Context {V DataType : Type}.

Variable assertBinary : String.string -> list DataType -> bool.
Variable isUInt : DataType -> bool.
Variable getDefault : DataType -> Field V.
Variable convertToUInt64 : Field V -> option N.
Variable convertFieldToType : Field V -> DataType -> option (Field V).

Abbreviation create :=
  (createAggregateFunctionGroupArrayInsertAt
     assertBinary isUInt getDefault convertToUInt64 convertFieldToType).

Lemma read_params_inr (params : Array V) default_value length_to_resize :
  read_params convertToUInt64 params = inr (default_value, length_to_resize) →
  (length params ≤ 2)%nat ∧
  default_value = at_ params 0 ∧
  length_to_resize ≤ MAX_SIZE ∧
  ((length params < 2)%nat → length_to_resize = 0) ∧
  (length params = 2%nat →
   convertToUInt64 (at_ params 1) = Some length_to_resize).
Proof using Type.
  unfold read_params.
  destruct (decide (params ≠ [])) as [Hne | He].
  - destruct (decide (2 < length params)%nat) as [Hmany | Hmany];
      [discriminate |].
    destruct (decide (length params = 2)%nat) as [H2 | H2].
    + destruct (convertToUInt64 (at_ params 1)) as [n |]; [| discriminate].
      destruct (decide (MAX_SIZE < n)) as [Hbig | Hbig]; [discriminate |].
      intros [= <- <-].
      split; [lia | split; [reflexivity | split; [lia | split]]];
        [lia | reflexivity].
    + intros [= <- <-].
      split; [lia | split; [reflexivity | split; [| split]]];
        [discriminate | reflexivity | lia].
  - assert (params = []) as ->
      by (destruct params; [reflexivity | now destruct He]).
    intros [= <- <-]. simpl.
    split; [lia | split; [reflexivity | split; [| split]]];
      [discriminate | reflexivity | lia].
Qed.

(** X14. A function object is only created for two arguments, the second of
    an unsigned integer type, and at most two parameters.  Its length is
    the second parameter and at most [0xFFFFFF], zero without one; its
    default value is the type's default when the first parameter is
    absent or null, and otherwise the first parameter converted to the
    type, which is then not null. *)
Theorem create_postconditions name argument_types (parameters : Array V) c :
  create name argument_types parameters = inr c →
  assertBinary name argument_types = true ∧
  (length parameters ≤ 2)%nat ∧
  valid_config c ∧
  ((length parameters < 2)%nat → length_to_resize c = 0) ∧
  (length parameters = 2%nat →
   convertToUInt64 (at_ parameters 1) = Some (length_to_resize c)) ∧
  ∃ type position_type,
    argument_types = [type; position_type] ∧
    isUInt position_type = true ∧
    (isNull (at_ parameters 0) = true → default_value c = getDefault type) ∧
    (isNull (at_ parameters 0) = false →
     convertFieldToType (at_ parameters 0) type = Some (default_value c) ∧
     isNull (default_value c) = false).
Proof using Type.
  unfold createAggregateFunctionGroupArrayInsertAt.
  destruct (assertBinary name argument_types); simpl; [| discriminate].
  destruct argument_types as [| type [| position_type [| ? ?]]];
    try discriminate.
  unfold AggregateFunctionGroupArrayInsertAtGeneric.
  destruct (read_params convertToUInt64 parameters) as [e | [d l]] eqn:E;
    [discriminate |].
  apply read_params_inr in E as (Hlen & -> & Hmax & Hzero & Hconv).
  destruct (isUInt position_type) eqn:Hu; simpl; [| discriminate].
  destruct (isNull (at_ parameters 0)) eqn:Hnull.
  - intros [= <-]. simpl.
    split; [reflexivity | split; [exact Hlen | split; [exact Hmax |]]].
    split; [exact Hzero | split; [exact Hconv |]].
    exists type, position_type.
    split; [reflexivity | split; [exact Hu | split]];
      [reflexivity | discriminate].
  - destruct (convertFieldToType (at_ parameters 0) type) as [converted |] eqn:Ec;
      [| discriminate].
    destruct (isNull converted) eqn:Hc; [discriminate |].
    intros [= <-]. simpl.
    split; [reflexivity | split; [exact Hlen | split; [exact Hmax |]]].
    split; [exact Hzero | split; [exact Hconv |]].
    exists type, position_type.
    split; [reflexivity | split; [exact Hu | split]];
      [discriminate | intros _; split; [exact Ec | exact Hc]].
Qed.

(** X15. The checks are made in a fixed order: the number of arguments, the
    number of parameters, the length against [0xFFFFFF], and only then
    the type of the position. *)
Theorem create_error_order name argument_types (parameters : Array V) :
  assertBinary name argument_types = true →
  (length argument_types ≠ 2%nat →
   create name argument_types parameters
   = inl (Raised NUMBER_OF_ARGUMENTS_DOESNT_MATCH)) ∧
  (length argument_types = 2%nat → (2 < length parameters)%nat →
   create name argument_types parameters
   = inl (Raised TOO_MANY_ARGUMENTS_FOR_FUNCTION)) ∧
  (length argument_types = 2%nat → length parameters = 2%nat →
   ∀ n, convertToUInt64 (at_ parameters 1) = Some n → MAX_SIZE < n →
        create name argument_types parameters
        = inl (Raised TOO_LARGE_ARRAY_SIZE)) ∧
  (∀ type position_type,
     argument_types = [type; position_type] →
     isUInt position_type = false →
     (length parameters < 2)%nat →
     create name argument_types parameters
     = inl (Raised ILLEGAL_TYPE_OF_ARGUMENT)).
Proof using Type.
  intros Hassert. unfold createAggregateFunctionGroupArrayInsertAt.
  rewrite Hassert. simpl.
  split; [| split; [| split]].
  - intros Hlen.
    destruct argument_types as [| type [| position_type [| ? ?]]];
      try reflexivity.
    now destruct Hlen.
  - intros Hlen Hmany.
    destruct argument_types as [| type [| position_type [| ? ?]]];
      try discriminate.
    unfold AggregateFunctionGroupArrayInsertAtGeneric, read_params.
    destruct (decide (parameters ≠ [])) as [_ | He].
    + destruct (decide (2 < length parameters)%nat); [reflexivity | lia].
    + destruct parameters; [simpl in Hmany; lia | now destruct He].
  - intros Hlen Hp n Hn Hbig.
    destruct argument_types as [| type [| position_type [| ? ?]]];
      try discriminate.
    unfold AggregateFunctionGroupArrayInsertAtGeneric, read_params.
    destruct (decide (parameters ≠ [])) as [_ | He].
    + destruct (decide (2 < length parameters)%nat); [lia |].
      destruct (decide (length parameters = 2)%nat) as [_ | Hd];
        [| now destruct Hd].
      rewrite Hn.
      destruct (decide (MAX_SIZE < n)) as [_ | Hd];
        [reflexivity | now destruct Hd].
    + destruct parameters; [discriminate | now destruct He].
  - intros type position_type -> Hu Hp.
    unfold AggregateFunctionGroupArrayInsertAtGeneric, read_params.
    destruct (decide (parameters ≠ [])) as [_ | _].
    + destruct (decide (2 < length parameters)%nat); [lia |].
      destruct (decide (length parameters = 2)%nat); [lia |].
      now rewrite Hu.
    + now rewrite Hu.
Qed.

End ConstructionProperties.

(** ** The theorems on composition, applied to concrete inputs *)

Lemma add_is_merge_witness :
  let c : Config N := mkConfig (Value 0) 0 in
  accepted c 2 ∧
  state_of (add c [Value 1] (Value 9) 2)
  = merge [Value 1] (state_of (add c [] (Value 9) 2)) ∧
  state_of (add c [] (Value 9) 2) = replicate 2 Null ++ [Value 9].
Proof.
  intros c.
  assert (Hacc : accepted c 2) by bound.
  destruct (add_is_merge c [Value 1] (Value 9) 2) as [Hmerge Hone].
  split; [exact Hacc | split; [exact Hmerge | exact (Hone Hacc)]].
Defined.

Lemma add_commute_witness :
  let c : Config N := mkConfig (Value 0) 0 in
  (1 : N) ≠ 3 ∧
  state_of (add c (state_of (add c [Value 5] (Value 6) 1)) (Value 7) 3)
  = state_of (add c (state_of (add c [Value 5] (Value 7) 3)) (Value 6) 1).
Proof.
  intros c.
  assert (Hne : (1 : N) ≠ 3) by discriminate.
  split; [exact Hne |].
  exact (add_commute c [Value 5] (Value 6) (Value 7) 1 3 Hne).
Defined.

Lemma merge_add_rows_witness :
  let c : Config N := mkConfig (Value 0) 4 in
  let rows1 := [(Value 1, 0); (Value 2, 2); (Value 9, 7)] in
  let rows2 := [(Null, 1); (Value 3, 2); (Value 4, 3)] in
  add_rows c [] rows1 = Done [Value 1; Null; Value 2] ∧
  add_rows c [] rows2 = Done [Null; Null; Value 3; Value 4] ∧
  add_rows c [] (rows1 ++ rows2)
  = Done (merge [Value 1; Null; Value 2] [Null; Null; Value 3; Value 4]).
Proof.
  intros c rows1 rows2.
  assert (H1 : add_rows c [] rows1 = Done [Value 1; Null; Value 2])
    by reflexivity.
  assert (H2 : add_rows c [] rows2 = Done [Null; Null; Value 3; Value 4])
    by reflexivity.
  split; [exact H1 | split; [exact H2 |]].
  exact (merge_add_rows c rows1 rows2 _ _ H1 H2).
Defined.

Lemma add_rows_first_value_witness :
  let c : Config N := mkConfig (Value 0) 4 in
  let rows := [(Null, 1); (Value 3, 1); (Value 4, 1); (Value 5, 9)] in
  let s : Array N := [Null; Value 3] in
  valid_config c ∧
  add_rows c [] rows = Done s ∧
  at_ s 1 = first_value c rows 1 ∧
  finalize c s !! 1%nat
  = if decide (1 < N.to_nat (output_length c s))%nat
    then Some (emitted c (first_value c rows 1))
    else None.
Proof.
  intros c rows s.
  assert (Hc : valid_config c) by bound.
  assert (Hrows : add_rows c [] rows = Done s) by reflexivity.
  split; [exact Hc | split; [exact Hrows |]].
  exact (add_rows_first_value c rows s 1 Hc Hrows).
Defined.

Lemma insertResultInto_keeps_rows_witness :
  let c : Config N := mkConfig (Value 0) 1 in
  let to : ColumnArray N := mkColumnArray [Value 1; Value 2; Value 3] [2; 3] in
  (1 < length (getOffsets to))%nat ∧
  offsetAt (getOffsets to) 2 ≤ N.of_nat (length (getData to)) ∧
  rowAt (insertResultInto c [Value 7; Value 8] to) 1 = rowAt to 1.
Proof.
  intros c to.
  assert (Hn : (1 < length (getOffsets to))%nat) by (simpl; lia).
  assert (Hin : offsetAt (getOffsets to) 2 ≤ N.of_nat (length (getData to)))
    by (simpl; lia).
  split; [exact Hn | split; [exact Hin |]].
  exact (proj2 (insertResultInto_keeps_rows c [Value 7; Value 8] to 1 Hn Hin)).
Defined.

Lemma built_insertResultInto_witness :
  let c : Config N := mkConfig (Value 0) 3 in
  let s := merge (state_of (add c [] (Value 7) 1)) (state_of (add c [] (Value 8) 5)) in
  let to : ColumnArray N := mkColumnArray [Value 1; Value 2] [2] in
  built c s ∧ consistent to ∧
  offsets_back (getOffsets to) + output_length c s < 2 ^ 64 ∧
  consistent (insertResultInto c s to) ∧
  rowAt (insertResultInto c s to) 1 !! 1%nat = Some (emitted c (at_ s 1)).
Proof.
  intros c s to.
  assert (Hs : built c s)
    by (apply built_merge; apply built_add, built_empty).
  assert (Hto : consistent to) by reflexivity.
  assert (Hfit : offsets_back (getOffsets to) + output_length c s < 2 ^ 64)
    by reflexivity.
  destruct (built_insertResultInto c s to Hs Hto Hfit) as (Hcons & _ & Hrow).
  split; [exact Hs | split; [exact Hto | split; [exact Hfit |]]].
  split; [exact Hcons |].
  apply Hrow. vm_compute. lia.
Defined.

Lemma insertResultInto_no_null_witness :
  let c : Config N := mkConfig (Value 0) 3 in
  let to : ColumnArray N := mkColumnArray [Value 1] [1] in
  isNull (default_value c) = false ∧
  Forall (λ elem, isNull elem = false) (getData to) ∧
  Forall (λ elem, isNull elem = false)
    (getData (insertResultInto c [Null; Value 4] to)).
Proof.
  intros c to.
  assert (Hdef : isNull (default_value c) = false) by reflexivity.
  assert (Hto : Forall (λ elem : Field N, isNull elem = false) (getData to))
    by (repeat constructor).
  split; [exact Hdef | split; [exact Hto |]].
  exact (insertResultInto_no_null c [Null; Value 4] to Hdef Hto).
Defined.

Lemma deserialize_into_state_witness :
  let arr := [Value Byte.x01; Value Byte.x02; Value Byte.x03] in
  let s := [Null; Value Byte.x14] in
  valid_state s ∧
  ∃ r,
    deserialize VarInt.readVarUInt SerializationUInt8.deserializeBinary arr
      (serialize VarInt.writeVarUInt SerializationUInt8.serializeBinary s ++ [9])
    = (Done r, [9]) ∧
    length r = length s ∧
    ∀ i, (i < length s)%nat → at_ r i = first_non_null (at_ s i) (at_ arr i).
Proof.
  intros arr s.
  assert (Hs : valid_state s) by bound.
  split; [exact Hs |].
  apply (deserialize_into_state
           VarInt.writeVarUInt VarInt.readVarUInt
           SerializationUInt8.serializeBinary
           SerializationUInt8.deserializeBinary).
  - intros n rest Hn. apply readVarUInt_writeVarUInt.
    eapply N.le_lt_trans; [exact Hn | reflexivity].
  - apply deserializeBinary_serializeBinary_UInt8.
  - exact Hs.
Defined.

Lemma serialize_self_delimiting_witness :
  let s1 := [Null; Value Byte.x14] in
  let s2 := [Null; Value Byte.x14] in
  valid_state s1 ∧ valid_state s2 ∧
  serialize VarInt.writeVarUInt SerializationUInt8.serializeBinary s1 ++ [2; 1; 1]
  = serialize VarInt.writeVarUInt SerializationUInt8.serializeBinary s2 ++ [2; 1; 1] ∧
  s1 = s2 ∧ [2; 1; 1] = [2; 1; 1] :> Bytes.
Proof.
  intros s1 s2.
  assert (H1 : valid_state s1) by bound.
  assert (H2 : valid_state s2) by bound.
  split; [exact H1 | split; [exact H2 | split; [reflexivity |]]].
  apply (serialize_self_delimiting
           VarInt.writeVarUInt VarInt.readVarUInt
           SerializationUInt8.serializeBinary
           SerializationUInt8.deserializeBinary).
  - intros n rest Hn. apply readVarUInt_writeVarUInt.
    eapply N.le_lt_trans; [exact Hn | reflexivity].
  - apply deserializeBinary_serializeBinary_UInt8.
  - exact H1.
  - exact H2.
  - reflexivity.
Defined.

Lemma create_postconditions_witness :
  let assertBinary := λ (_ : String.string) (l : list bool), true in
  let isUInt := λ t : bool, t in
  let getDefault := λ _ : bool, Value 0 in
  let convertToUInt64 := λ f : Field N,
    match f with Value n => Some n | Null => None end in
  let convertFieldToType := λ (f : Field N) (_ : bool), Some f in
  let c := mkConfig (Value 7) 5 in
  createAggregateFunctionGroupArrayInsertAt
    assertBinary isUInt getDefault convertToUInt64 convertFieldToType
    String.EmptyString [false; true] [Value 7; Value 5] = inr c ∧
  valid_config c ∧ isNull (default_value c) = false.
Proof.
  intros assertBinary isUInt getDefault convertToUInt64 convertFieldToType c.
  assert (H : createAggregateFunctionGroupArrayInsertAt
                assertBinary isUInt getDefault convertToUInt64 convertFieldToType
                String.EmptyString [false; true] [Value 7; Value 5] = inr c)
    by reflexivity.
  destruct (create_postconditions
              assertBinary isUInt getDefault convertToUInt64 convertFieldToType
              _ _ _ _ H)
    as (_ & _ & Hvalid & _ & _ & type & position_type & _ & _ & _ & Hdef).
  split; [exact H | split; [exact Hvalid |]].
  exact (proj2 (Hdef eq_refl)).
Defined.

Lemma create_error_order_witness :
  let assertBinary := λ (_ : String.string) (l : list bool), true in
  let isUInt := λ t : bool, t in
  let getDefault := λ _ : bool, Value 0 in
  let convertToUInt64 := λ f : Field N,
    match f with Value n => Some n | Null => None end in
  let convertFieldToType := λ (f : Field N) (_ : bool), Some f in
  createAggregateFunctionGroupArrayInsertAt
    assertBinary isUInt getDefault convertToUInt64 convertFieldToType
    String.EmptyString [false; false] [Value 7; Value 0x1000000]
  = inl (Raised TOO_LARGE_ARRAY_SIZE).
Proof.
  intros assertBinary isUInt getDefault convertToUInt64 convertFieldToType.
  destruct (create_error_order
              assertBinary isUInt getDefault convertToUInt64 convertFieldToType
              String.EmptyString [false; false] [Value 7; Value 0x1000000]
              eq_refl)
    as (_ & _ & Hlarge & _).
  apply (Hlarge eq_refl eq_refl 0x1000000 eq_refl). bound.
Defined.

Lemma add_frame_witness :
  let c : Config N := mkConfig (Value 0) 0 in
  let arr : Array N := [Value 1; Null] in
  (0%nat ≠ N.to_nat 3) ∧
  at_ (state_of (add c arr (Value 9) 3)) 0 = at_ arr 0 ∧
  (length arr ≤ length (state_of (add c arr (Value 9%N) 3%N)))%nat.
Proof.
  intros c arr.
  assert (Hne : 0%nat ≠ N.to_nat 3) by (simpl; lia).
  destruct (add_frame c arr (Value 9) 3) as (Hother & Hgrow & _).
  split; [exact Hne | split; [exact (Hother 0%nat Hne) | exact Hgrow]].
Defined.
